(** * abnconv: CAMT.053 to QIF conversion, shallow embedding of src/abnconv.py

    The model follows the Python module function by function:
    - the four narrative regular expressions ([BEA_re], [SEPA_re], [ABN_re],
      [SPAREN_re]) are run by a small backtracking matcher with the
      leftmost, greedy-first priority of Python's [re];
    - [SEPA_markers_re.finditer] is a left-to-right, non-overlapping scan;
    - [Trsx] is a record, [QIFOutput] a record of the aggregator's fields,
      the global [accounts] registry a [gmap string string];
    - code that may raise returns [A + exn]; code that mutates the
      aggregator runs in a state monad whose state survives an exception,
      so that [__exit__] can be modelled on the state reached at a failure.

    Amounts are Python floats, kept as a sign bit and a decimal magnitude
    (see [pyfloat]), so that [0.0] and [-0.0] stay apart where the source
    tells them apart ([str], hence [__hash__] and the QIF block) and equal
    where it does not ([__eq__]).

    The account registry comes from a parsed INI file ([ConfigParser]),
    read through [configparser]'s [BasicInterpolation]. *)

From Stdlib Require Import String Ascii NArith List Bool Lia.
From stdpp Require Import base gmap strings.

Import ListNotations.

(* ------------------------------------------------------------------ *)
(** ** Characters and strings *)

Definition chr (n : nat) : ascii := ascii_of_nat n.

(** Python [.] (without DOTALL): anything but a newline. *)
Definition is_dot (c : ascii) : bool := negb (nat_of_ascii c =? 10).

(** Python [\d] on the ASCII range. *)
Definition is_digit (c : ascii) : bool :=
  (48 <=? nat_of_ascii c) && (nat_of_ascii c <=? 57).

(** Python [\s] (str pattern) on the ASCII range: space, \t \n \v \f \r
    and the separators \x1c-\x1f. *)
Definition is_space (c : ascii) : bool :=
  let n := nat_of_ascii c in
  (n =? 32) || ((9 <=? n) && (n <=? 13)) || ((28 <=? n) && (n <=? 31)).

Definition is_alpha (c : ascii) : bool :=
  let n := nat_of_ascii c in
  ((65 <=? n) && (n <=? 90)) || ((97 <=? n) && (n <=? 122)).

(** Python [\w] on the ASCII range. *)
Definition is_word (c : ascii) : bool :=
  is_alpha c || is_digit c || (nat_of_ascii c =? 95).

Definition str (s : list ascii) : string := string_of_list_ascii s.
Definition chars (s : string) : list ascii := list_ascii_of_string s.

(** The double quote character, as a one-letter string. *)
Definition dq : string := String (chr 34) EmptyString.
Definition nl : string := String (chr 10) EmptyString.

(** Python slicing [s[a:b]] for [0 <= a, b <= len(s)]. *)
Definition py_slice (s : list ascii) (a b : nat) : list ascii :=
  firstn (b - a) (skipn a s).

(* ------------------------------------------------------------------ *)
(** ** A backtracking matcher for the patterns of the module *)

Inductive regex : Type :=
  | REps
  | RChr (p : ascii -> bool)
  | RPlus (p : ascii -> bool)             (* greedy [p+] *)
  | RSeq (r1 r2 : regex)
  | RGroup (name : string) (r : regex).   (* [(?P<name>r)] or [(r)] *)

Definition captures := list (string * list ascii).

(** Greedy [p*]: try to take one more character first. *)
Fixpoint star_match (p : ascii -> bool) (s : list ascii)
    (k : list ascii -> option captures) : option captures :=
  match s with
  | c :: s' =>
      if p c then
        match star_match p s' k with
        | Some cs => Some cs
        | None => k s
        end
      else k s
  | [] => k s
  end.

Definition plus_match (p : ascii -> bool) (s : list ascii)
    (k : list ascii -> option captures) : option captures :=
  match s with
  | c :: s' => if p c then star_match p s' k else None
  | [] => None
  end.

Fixpoint rmatch (r : regex) (s : list ascii)
    (k : list ascii -> option captures) : option captures :=
  match r with
  | REps => k s
  | RChr p => match s with c :: s' => if p c then k s' else None | [] => None end
  | RPlus p => plus_match p s k
  | RSeq r1 r2 => rmatch r1 s (fun s' => rmatch r2 s' k)
  | RGroup n r1 =>
      rmatch r1 s (fun s' =>
        match k s' with
        | Some cs => Some ((n, firstn (length s - length s') s) :: cs)
        | None => None
        end)
  end.

(** [regexp.search(text)]: the leftmost starting position that matches. *)
Fixpoint rsearch (r : regex) (s : list ascii) : option captures :=
  match rmatch r s (fun _ => Some []) with
  | Some cs => Some cs
  | None => match s with [] => None | _ :: s' => rsearch r s' end
  end.

Definition group (cs : captures) (n : string) : option string :=
  match find (fun '(m, _) => String.eqb m n) cs with
  | Some (_, v) => Some (str v)
  | None => None
  end.

Fixpoint rlit (s : list ascii) : regex :=
  match s with
  | [] => REps
  | c :: s' => RSeq (RChr (Ascii.eqb c)) (rlit s')
  end.

Definition lit (s : string) : regex := rlit (chars s).

Fixpoint rseq (rs : list regex) : regex :=
  match rs with
  | [] => REps
  | [r] => r
  | r :: rs' => RSeq r (rseq rs')
  end.

Definition any : regex := RChr is_dot.
Definition digit : regex := RChr is_digit.

(** [BEA_re = "(?P<subtype>[GB])EA.+(\d{2}.){4}\d{2}(?P<payee>.+),PAS(\d+)"] *)
Definition BEA_re : regex :=
  rseq [ RGroup "subtype" (RChr (fun c => Ascii.eqb c "G" || Ascii.eqb c "B"));
         lit "EA"; RPlus is_dot;
         rseq [digit; digit; any]; rseq [digit; digit; any];
         rseq [digit; digit; any]; rseq [digit; digit; any];
         digit; digit;
         RGroup "payee" (RPlus is_dot);
         lit ",PAS"; RPlus is_digit ]%string.

(** [SEPA_re = "/TRTP/.+"] *)
Definition SEPA_re : regex := RSeq (lit "/TRTP/") (RPlus is_dot).

(** [ABN_re = "(?P<payee>ABN AMRO Bank N.V.)\s+(?P<memo>\w+).+"] *)
Definition ABN_re : regex :=
  rseq [ RGroup "payee" (rseq [lit "ABN AMRO Bank N"; any; lit "V"; any]);
         RPlus is_space; RGroup "memo" (RPlus is_word); RPlus is_dot ]%string.

(** [SPAREN_re = "ACCOUNT BALANCED\s+(?P<memo>CREDIT INTEREST.+)For interest rates"] *)
Definition SPAREN_re : regex :=
  rseq [ lit "ACCOUNT BALANCED"; RPlus is_space;
         RGroup "memo" (RSeq (lit "CREDIT INTEREST") (RPlus is_dot));
         lit "For interest rates" ]%string.

(* ------------------------------------------------------------------ *)
(** ** [SEPA_markers_re.finditer]:
    [SEPA_markers_re = "/(TRTP|CSID|NAME|MARF|REMI|IBAN|BIC|EREF)/"] *)

Definition sepa_tags : list string :=
  ["TRTP"; "CSID"; "NAME"; "MARF"; "REMI"; "IBAN"; "BIC"; "EREF"]%string.

Definition delim (t : string) : list ascii := chars ("/" ++ t ++ "/")%string.

Fixpoint is_prefix (p s : list ascii) : bool :=
  match p, s with
  | [], _ => true
  | c :: p', d :: s' => Ascii.eqb c d && is_prefix p' s'
  | _ :: _, [] => false
  end.

(** The alternatives are tried in order; the first that matches wins. *)
Definition marker_at (s : list ascii) : option string :=
  find (fun t => is_prefix (delim t) s) sepa_tags.

(** A match object: [group(1)], [start(0)] and [end(0)]. *)
Record marker := mkMarker { mtag : string; mstart : nat; mend : nat }.

(** [finditer]: scan from position [i]; after a match, the next search
    starts at its end ([skip] characters still to be jumped over). *)
Fixpoint scan (s : list ascii) (i skip : nat) : list marker :=
  match s with
  | [] => []
  | _ :: s' =>
      match skip with
      | S k => scan s' (S i) k
      | O =>
          match marker_at s with
          | Some t =>
              let L := String.length t + 2 in
              mkMarker t i (i + L) :: scan s' (S i) (L - 1)
          | None => scan s' (S i) 0
          end
      end
  end.

Definition markers (s : list ascii) : list marker := scan s 0 0.

(** Python truthiness of [start], which is [None] or an [int]. *)
Definition truthy (start : option nat) : bool :=
  match start with Some n => negb (n =? 0) | None => false end.

(** The [for] loop of [find_sepa_field]. *)
Fixpoint sepa_loop (info : list ascii) (field : string) (start : option nat)
    (ms : list marker) : option string :=
  match ms with
  | [] => None
  | m :: ms' =>
      if String.eqb (mtag m) field then sepa_loop info field (Some (mend m)) ms'
      else if truthy start then
        match start with
        | Some st => Some (str (py_slice info st (mstart m)))
        | None => None
        end
      else sepa_loop info field start ms'
  end.

Definition is_match {A} (o : option A) : bool :=
  match o with Some _ => true | None => false end.

(** [process_entry.find_sepa_field] *)
Definition find_sepa_field (transaction_info : string) (field : string) : option string :=
  let info := chars transaction_info in
  if is_match (rsearch SEPA_re info) then sepa_loop info field None (markers info)
  else None.

(* ------------------------------------------------------------------ *)
(** ** Dates and amounts as the templates print them *)

Record datetime := mkDatetime { year : nat; month : nat; day : nat }.

Definition digit_char (d : nat) : ascii := chr (48 + d).

(** Decimal digits of [n], most significant first; [fuel] bounds the
    number of digits. *)
Fixpoint digits_aux (fuel n : nat) (acc : list ascii) : list ascii :=
  match fuel with
  | O => acc
  | S f =>
      let acc' := digit_char (n mod 10) :: acc in
      if n <? 10 then acc' else digits_aux f (n / 10) acc'
  end.

Definition digits (n : nat) : list ascii := digits_aux (S n) n [].

(** Zero-padded to [w] characters, as [%Y] (w = 4), [%m] and [%d] (w = 2). *)
Definition pad (w n : nat) : string :=
  let ds := digits n in str (repeat "0"%char (w - length ds) ++ ds).

(** [strftime(fmt)] for ["%Y<sep>%m<sep>%d"]. *)
Definition strftime_ymd (sep : string) (d : datetime) : string :=
  (pad 4 (year d) ++ sep ++ pad 2 (month d) ++ sep ++ pad 2 (day d))%string.

(** Decimal digits of a binary number, most significant first. *)
Fixpoint digitsN_aux (fuel : nat) (n : N) (acc : list ascii) : list ascii :=
  match fuel with
  | O => acc
  | S f =>
      let acc' := ascii_of_N (48 + n mod 10) :: acc in
      if (n <? 10)%N then acc' else digitsN_aux f (n / 10)%N acc'
  end.

(** [N.size n] (the number of bits) bounds the number of decimal digits. *)
Definition digitsN (n : N) : list ascii := digitsN_aux (S (N.to_nat (N.size n))) n [].

(** A Python [float] as the module obtains it: [float(Amt)] of a bank
    amount (a decimal with at most two fractional digits and at most 15
    significant digits) and its products with [-1]. On such decimals
    [float] is injective and exact enough that [str] gives the decimal
    back, and [* -1] flips the sign bit only, also of zero
    ([0.0 * -1] is [-0.0]). Such a float is its sign bit [fneg] and its
    magnitude [fmag] in hundredths. *)
Record pyfloat := mkFloat { fneg : bool; fmag : N }.

(** [x * -1] *)
Definition float_neg (x : pyfloat) : pyfloat := mkFloat (negb (fneg x)) (fmag x).

(** [x == y]: equal magnitudes, and equal signs unless both are zero
    ([0.0 == -0.0] is [True]). *)
Definition float_eqb (x y : pyfloat) : bool :=
  N.eqb (fmag x) (fmag y) && (N.eqb (fmag x) 0 || Bool.eqb (fneg x) (fneg y)).

(** [str(x)], also ['{}'.format(x)]: the shortest decimal that reads back
    as [x], with a sign for a set sign bit and at least one fractional
    digit: ['12.5'], ['-3.99'], ['10.0'], ['0.05'], ['-0.0']. *)
Definition str_float (x : pyfloat) : string :=
  let m := fmag x in
  let c := N.to_nat (m mod 100) in
  let frac := if c =? 0 then "0"%string
              else if c mod 10 =? 0 then str [digit_char (c / 10)] else pad 2 c in
  ((if fneg x then "-" else "") ++ str (digitsN (m / 100)) ++ "." ++ frac)%string.

(** [str(x)] of an optional string: [None] prints as ["None"]. *)
Definition str_opt (o : option string) : string :=
  match o with Some s => s | None => "None" end.

(* ------------------------------------------------------------------ *)
(** ** [class Trsx] *)

Record Trsx := mkTrsx {
  source_iban : string;
  dest_iban : option string;
  type : string;
  date : datetime;
  amount : pyfloat;
  payee : option string;
  memo : option string;
  transaction_desc : string
}.

Definition datetime_eqb (d1 d2 : datetime) : bool :=
  (year d1 =? year d2) && (month d1 =? month d2) && (day d1 =? day d2).

Definition opt_eqb (o1 o2 : option string) : bool :=
  match o1, o2 with
  | Some a, Some b => String.eqb a b
  | None, None => true
  | _, _ => false
  end.

(** [Trsx.__eq__]: every field but [transaction_desc]. *)
Definition trsx_eqb (s o : Trsx) : bool :=
  String.eqb (source_iban s) (source_iban o)
  && opt_eqb (dest_iban s) (dest_iban o)
  && String.eqb (type s) (type o)
  && datetime_eqb (date s) (date o)
  && float_eqb (amount s) (amount o)
  && opt_eqb (payee s) (payee o)
  && opt_eqb (memo s) (memo o).

(** [Trsx.__hash__] hashes this string: source, dest, date, amount, memo. *)
Definition hash_key (t : Trsx) : string :=
  (source_iban t ++ "-" ++ str_opt (dest_iban t) ++ "-" ++ strftime_ymd "" (date t)
   ++ "-" ++ str_float (amount t) ++ "/" ++ str_opt (memo t))%string.

(** The exceptions the module raises. *)
Inductive exn : Type :=
  | ValueError (msg : string)
  | KeyError (key : string)
  (** [configparser]'s interpolation errors; a syntax error keeps the
      message template and the text it formats with [%r]. *)
  | InterpolationSyntaxError (option section template rest : string)
  | InterpolationMissingOptionError (option section rawval reference : string)
  | InterpolationDepthError (option section rawval : string).

(** [qif_account_tpl] *)
Definition qif_account_tpl (name type_ : string) : string :=
  ("!Account" ++ nl ++ "N" ++ name ++ nl ++ "T" ++ type_ ++ nl ++ "^")%string.

(** [qif_tpl_plain_tsx] *)
Definition qif_tpl_plain_tsx (type_ date_ amount_ payee_ memo_ ledger : string) : string :=
  ("!Type:" ++ type_ ++ nl ++ "D" ++ date_ ++ nl ++ "T" ++ amount_ ++ nl ++ "C" ++ nl
   ++ "P" ++ payee_ ++ nl ++ "M" ++ memo_ ++ nl ++ "L" ++ ledger ++ nl ++ "^")%string.

(* ------------------------------------------------------------------ *)
(** ** Association lists: a Python [dict] in insertion order *)

Definition al_mem {V} (k : string) (l : list (string * V)) : bool :=
  existsb (fun kv => String.eqb k (fst kv)) l.

(** [d[k] = f(d[k])]: the key keeps its position. *)
Definition al_update {V} (k : string) (f : V -> V) (l : list (string * V)) : list (string * V) :=
  map (fun kv => if String.eqb k (fst kv) then (fst kv, f (snd kv)) else kv) l.

(** ** [class QIFOutput]: the fields the conversion uses ([output_path] and
    [output_file] are the I/O handle, see [exit_output]). *)
Module QIFOutput.
Record t := mk {
  accounts : list (string * list string);   (* [self.accounts], a dict *)
  transaction_list : list Trsx;             (* [self._transaction_list], a set *)
  added : nat;
  skipped : nat
}.

(** [QIFOutput.__init__] *)
Definition init : t := mk [] [] 0 0.
End QIFOutput.

(** The aggregator's state across calls, kept when an exception escapes. *)
Definition M (A : Type) : Type := QIFOutput.t -> (A + exn) * QIFOutput.t.

Definition ret {A} (a : A) : M A := fun st => (inl a, st).

Definition bind {A B} (m : M A) (f : A -> M B) : M B :=
  fun st => match m st with
            | (inl a, st') => f a st'
            | (inr e, st') => (inr e, st')
            end.

Definition lift {A} (r : A + exn) : M A := fun st => (r, st).

Definition modify (f : QIFOutput.t -> QIFOutput.t) : M unit := fun st => (inl tt, f st).

Notation "x <- m ;; k" := (bind m (fun x => k))
  (at level 100, m at next level, right associativity).

Section Engine.

(** The module-level registry [accounts = _load_accounts()]: IBAN to name. *)
Variable accounts : gmap string string.

(** [_get_account(iban)]: [accounts[iban]], a [KeyError] when absent. *)
Definition _get_account (iban : string) : string + exn :=
  match accounts !! iban with
  | Some name => inl name
  | None => inr (KeyError iban)
  end.

(** [Trsx.is_transfer_transaction]: [self.dest_iban in accounts]
    ([None] is never a key). *)
Definition is_transfer_transaction (t : Trsx) : bool :=
  match dest_iban t with
  | Some d => is_match (accounts !! d)
  | None => false
  end.

(** [Trsx.complementary] *)
Definition complementary (t : Trsx) : Trsx + exn :=
  if negb (is_transfer_transaction t) then
    inr (ValueError "Complementary Trsx available only for transfer transactions")
  else
    match dest_iban t with
    | Some d =>
        inl {| source_iban := d; dest_iban := Some (source_iban t); type := type t;
               date := date t; amount := float_neg (amount t); payee := payee t;
               memo := memo t; transaction_desc := transaction_desc t |}
    | None => inr (ValueError "Complementary Trsx available only for transfer transactions")
    end.

(** [Trsx.get_qif_tx] *)
Definition get_qif_tx (t : Trsx) : string + exn :=
  let nn v := match v with Some s => s | None => "" end in
  let memo_ := nn (memo t) in
  if is_transfer_transaction t then
    let memo_ := match memo t with None => "Transfer"%string | Some _ => memo_ end in
    match _get_account (str_opt (dest_iban t)) with
    | inl name =>
        inl (qif_tpl_plain_tsx (type t) (strftime_ymd "/" (date t)) (str_float (amount t))
               (nn (payee t)) memo_ ("[" ++ name ++ "]")%string)
    | inr e => inr e
    end
  else
    inl (qif_tpl_plain_tsx (type t) (strftime_ymd "/" (date t)) (str_float (amount t))
           (nn (payee t)) memo_ "").

(* ------------------------------------------------------------------ *)
(** ** [process_entry] *)

(** An [Ntry] element: [ValDt/Dt] (parsed by [strptime]), [Amt] (parsed
    by [float]), [CdtDbtInd] and [AddtlNtryInf]. *)
Record Ntry := mkNtry {
  ValDt : datetime;
  Amt : pyfloat;
  CdtDbtInd : string;
  AddtlNtryInf : string
}.

(** [process_entry._get_regex]: the dict [{'bea': ..., 'sepa': ...,
    'abn': ..., 'sparen': ...}] is iterated in insertion order. *)
Definition grammars : list (string * regex) :=
  [("bea", BEA_re); ("sepa", SEPA_re); ("abn", ABN_re); ("sparen", SPAREN_re)]%string.

Fixpoint first_match (info : string) (gs : list (string * regex)) : option (string * captures) :=
  match gs with
  | [] => None
  | (ty, r) :: gs' =>
      match rsearch r (chars info) with
      | Some cs => Some (ty, cs)
      | None => first_match info gs'
      end
  end.

Definition _get_regex (transaction_info : string) : option (string * captures) :=
  first_match transaction_info grammars.

Definition process_entry (account_iban : string) (elem : Ntry) : Trsx + exn :=
  let transaction_info := AddtlNtryInf elem in
  let amount_ := if String.eqb (CdtDbtInd elem) "DBIT" then float_neg (Amt elem) else Amt elem in
  let tsx ty p m d :=
    {| source_iban := account_iban; dest_iban := d; type := ty; date := ValDt elem;
       amount := amount_; payee := p; memo := m; transaction_desc := transaction_info |} in
  let unsupported :=
    inr (ValueError ("Transaction type not supported for " ++ dq ++ transaction_info ++ dq)) in
  match _get_regex transaction_info with
  | Some (tx_type, m) =>
      if String.eqb tx_type "bea" then
        inl (tsx (if opt_eqb (group m "subtype") (Some "B") then "Bank" else "Cash")
                 (group m "payee") (Some transaction_info) None)
      else if String.eqb tx_type "sepa" then
        inl (tsx "Bank" (find_sepa_field transaction_info "NAME")
                 (find_sepa_field transaction_info "REMI")
                 (find_sepa_field transaction_info "IBAN"))
      else if String.eqb tx_type "abn" then
        inl (tsx "Bank" (group m "payee") (group m "memo") None)
      else if String.eqb tx_type "sparen" then
        inl (tsx "Bank" (Some "ABN AMRO Bank N.V.") (group m "memo") None)
      else unsupported
  | None => unsupported
  end%string.

(* ------------------------------------------------------------------ *)
(** ** The aggregator *)

(** [transaction in self._transaction_list]: a set probes the entries whose
    hash equals the hash of [transaction], then compares with [__eq__].
    [__hash__] is the hash of the string [hash_key]; string hashes are
    taken to be collision-free, so equal hashes are equal strings. *)
Definition same_entry (t y : Trsx) : bool :=
  String.eqb (hash_key t) (hash_key y) && trsx_eqb t y.

Definition py_in (t : Trsx) (s : list Trsx) : bool := existsb (same_entry t) s.

(** The seven fields [__eq__] compares are identical, the amount included
    (so also in the sign of a zero). *)
Definition same_fields (s o : Trsx) : Prop :=
  source_iban s = source_iban o /\ dest_iban s = dest_iban o /\ type s = type o /\
  date s = date o /\ amount s = amount o /\ payee s = payee o /\ memo s = memo o.

Definition set_accounts (a : list (string * list string)) (st : QIFOutput.t) : QIFOutput.t :=
  QIFOutput.mk a (QIFOutput.transaction_list st) (QIFOutput.added st) (QIFOutput.skipped st).

(** [QIFOutput._get_list(account)]: the dict entry is created before the
    header is rendered, so a [KeyError] of [_get_account] leaves an empty
    list behind. The caller appends to the returned list, see [iadd]. *)
Definition _get_list (account : string) : M unit :=
  fun st =>
    if al_mem account (QIFOutput.accounts st) then (inl tt, st)
    else
      let st1 := set_accounts (QIFOutput.accounts st ++ [(account, [])]) st in
      match _get_account account with
      | inl name =>
          (inl tt, set_accounts (al_update account (fun l => app l [qif_account_tpl name "Bank"%string])
                                  (QIFOutput.accounts st1)) st1)
      | inr e => (inr e, st1)
      end.

(** [QIFOutput.__iadd__] (the [--verbose] diagnostic print is omitted). *)
Definition iadd (transaction : Trsx) : M unit :=
  fun st =>
    if negb (py_in transaction (QIFOutput.transaction_list st)) then
      (_ <- _get_list (source_iban transaction) ;;
       block <- lift (get_qif_tx transaction) ;;
       modify (fun st =>
         QIFOutput.mk
           (al_update (source_iban transaction) (fun l => l ++ [block]) (QIFOutput.accounts st))
           (transaction :: QIFOutput.transaction_list st)
           (S (QIFOutput.added st)) (QIFOutput.skipped st))) st
    else
      modify (fun st =>
        QIFOutput.mk (QIFOutput.accounts st) (QIFOutput.transaction_list st)
          (QIFOutput.added st) (S (QIFOutput.skipped st))) st.

(** A sequence of [out += t]. *)
Fixpoint iadd_all (ts : list Trsx) : M unit :=
  match ts with
  | [] => ret tt
  | t :: ts' => _ <- iadd t ;; iadd_all ts'
  end.

(** One [Ntry] of [_trsx_list] and the body of the [for] loop of the main
    block: the record ([if trsx:] always holds for a [Trsx] object), then
    its complement for a transfer. *)
Definition process_one (account_iban : string) (elem : Ntry) : M unit :=
  trsx <- lift (process_entry account_iban elem) ;;
  _ <- iadd trsx ;;
  if is_transfer_transaction trsx then
    c <- lift (complementary trsx) ;; iadd c
  else ret tt.

(** The [with QIFOutput(out_path) as out:] body over all entries of all
    source files, each with the IBAN of its statement. *)
Fixpoint run (entries : list (string * Ntry)) : M unit :=
  match entries with
  | [] => ret tt
  | (iban, elem) :: rest => _ <- process_one iban elem ;; run rest
  end.

End Engine.

(** [QIFOutput.__exit__]: what it prints to the output file, whatever
    [exc_type] is. *)
Definition exit_output (st : QIFOutput.t) : string :=
  String.concat "" (map (fun qif_entry_list =>
    String.concat "" (map (fun qif_entry => qif_entry ++ nl) qif_entry_list))
    (map snd (QIFOutput.accounts st)))%string.

(** The main block: [__enter__], the loop, then [__exit__] in every case.
    Result: the outcome of the loop, the document written, the final state. *)
Definition main_run (accounts : gmap string string) (entries : list (string * Ntry))
    : (unit + exn) * string * QIFOutput.t :=
  let '(r, st) := run accounts entries QIFOutput.init in (r, exit_output st, st).

(* ------------------------------------------------------------------ *)
(** ** Reference descriptions used to state properties *)

(** The records a sequence of adds accepts: a record is kept unless it is
    in the set of those kept before (same hash, then [__eq__]). *)
Fixpoint accept_seq (seen : list Trsx) (ts : list Trsx) : list Trsx :=
  match ts with
  | [] => []
  | t :: ts' =>
      if py_in t seen then accept_seq seen ts'
      else t :: accept_seq (t :: seen) ts'
  end.

(** The distinct elements of a list, in order of first occurrence. *)
Fixpoint firsts (l : list string) : list string :=
  match l with
  | [] => []
  | x :: l' => x :: List.filter (fun y => negb (String.eqb x y)) (firsts l')
  end.

Definition block_of (accounts : gmap string string) (t : Trsx) : string :=
  match get_qif_tx accounts t with inl b => b | inr _ => "" end.

Definition header_of (accounts : gmap string string) (a : string) : string :=
  match _get_account accounts a with inl n => qif_account_tpl n "Bank" | inr _ => "" end.

(** The per-account grouping of accepted records: one group per source
    account, in order of first occurrence, a header then the blocks of the
    account's records in acceptance order. *)
Definition grouped (accounts : gmap string string) (acc : list Trsx) : list (string * list string) :=
  map (fun a => (a, header_of accounts a
                    :: map (block_of accounts) (List.filter (fun t => String.eqb (source_iban t) a) acc)))
      (firsts (map source_iban acc)).

(* ------------------------------------------------------------------ *)
(** ** Sample data *)

Definition sample_accounts : gmap string string :=
  <["NL01ABNA0000000001" := "Checking"]> (<["NL02ABNA0000000002" := "Savings"]> ∅).

Definition jan2 : datetime := mkDatetime 2024 1 2.

Definition sample_transfer : Ntry :=
  mkNtry jan2 (mkFloat false 1250) "DBIT"
    "/TRTP/SEPA OVERBOEKING/IBAN/NL02ABNA0000000002/NAME/J SMITH/REMI/rent/EREF/NOTPROVIDED".

Definition sample_unknown : Ntry := mkNtry jan2 (mkFloat false 500) "CRDT" "GIFT FROM A FRIEND".

Definition sample_card : Ntry :=
  mkNtry jan2 (mkFloat false 399) "DBIT" "BEA   NR:XXXX   02.01.24/13.45 GROCERY STORE,PAS999".

(** Two records with the same [__hash__] fields but a different payee. *)
Definition rec_a : Trsx :=
  {| source_iban := "NL01ABNA0000000001"; dest_iban := None; type := "Bank"; date := jan2;
     amount := mkFloat true 399; payee := Some "SHOP A"; memo := Some "groceries";
     transaction_desc := "" |}.

Definition rec_b : Trsx :=
  {| source_iban := "NL01ABNA0000000001"; dest_iban := None; type := "Bank"; date := jan2;
     amount := mkFloat true 399; payee := Some "SHOP B"; memo := Some "groceries";
     transaction_desc := "" |}.

(** Same [__hash__] fields as [rec_a], another kind. *)
Definition rec_c : Trsx :=
  {| source_iban := "NL01ABNA0000000001"; dest_iban := None; type := "Cash"; date := jan2;
     amount := mkFloat true 399; payee := Some "SHOP A"; memo := Some "groceries";
     transaction_desc := "" |}.

(** A transfer from an account absent from the registry to a registered one. *)
Definition rec_unregistered_source : Trsx :=
  {| source_iban := "NL99ABNA0000000099"; dest_iban := Some "NL01ABNA0000000001";
     type := "Bank"; date := jan2; amount := mkFloat false 1000; payee := None; memo := None;
     transaction_desc := "" |}.

Definition rec_transfer : Trsx :=
  {| source_iban := "NL01ABNA0000000001"; dest_iban := Some "NL02ABNA0000000002";
     type := "Bank"; date := jan2; amount := mkFloat true 1250; payee := Some "J SMITH";
     memo := Some "rent"; transaction_desc := "" |}.

Definition ok_or {A} (d : A) (r : A + exn) : A := match r with inl a => a | inr _ => d end.

Definition rec_transfer_compl : Trsx :=
  ok_or rec_transfer (complementary sample_accounts rec_transfer).

Definition rec_unregistered_compl : Trsx :=
  ok_or rec_unregistered_source (complementary sample_accounts rec_unregistered_source).

(** A zero amount: [float("0.00")] for a credit, [0.0 * -1 = -0.0] for a
    debit; the two records are [__eq__] and hash differently. *)
Definition rec_zero_credit : Trsx :=
  {| source_iban := "NL01ABNA0000000001"; dest_iban := None; type := "Bank"; date := jan2;
     amount := mkFloat false 0; payee := Some "ABN AMRO Bank N.V."; memo := Some "fee";
     transaction_desc := "" |}.

Definition rec_zero_debit : Trsx :=
  {| source_iban := "NL01ABNA0000000001"; dest_iban := None; type := "Bank"; date := jan2;
     amount := mkFloat true 0; payee := Some "ABN AMRO Bank N.V."; memo := Some "fee";
     transaction_desc := "" |}.

Definition sample_card_record : Trsx :=
  ok_or rec_a (process_entry "NL01ABNA0000000001" sample_card).

Definition state_after (accounts : gmap string string) (ts : list Trsx) : QIFOutput.t :=
  snd (iadd_all accounts ts QIFOutput.init).

Definition state_after_run (accounts : gmap string string) (es : list (string * Ntry)) : QIFOutput.t :=
  snd (run accounts es QIFOutput.init).

(* ------------------------------------------------------------------ *)
(** ** [_load_accounts] over a parsed INI configuration *)

(** [d.get(k)] on an association list with unique keys. *)
Definition al_lookup {V} (k : string) (l : list (string * V)) : option V :=
  match find (fun kv => String.eqb (fst kv) k) l with
  | Some (_, v) => Some v
  | None => None
  end.

(** A [configparser.ConfigParser] after [read]: the [DEFAULT] section and
    the other sections in file order (names and option keys unique, keys
    already lower-cased by [optionxform]), with the raw option values;
    [read] does not interpolate. *)
Record ConfigParser := mkConfig {
  defaults : list (string * string);
  sections : list (string * list (string * string))
}.

(** The raw value of an option of a section, as [key in conf_parser[section]]
    ([has_option]) and the map [_unify_values] see it: the section's own
    options, then [DEFAULT]. *)
Definition section_get (cp : ConfigParser) (opts : list (string * string)) (k : string)
    : option string :=
  match al_lookup k opts with
  | Some v => Some v
  | None => al_lookup k (defaults cp)
  end.

(** [optionxform] is [str.lower]; here on ASCII letters. *)
Definition lower_char (c : ascii) : ascii :=
  let n := nat_of_ascii c in if (65 <=? n) && (n <=? 90) then chr (n + 32) else c.

Definition optionxform (s : string) : string := str (map lower_char (chars s)).

Definition cons_ok (c : ascii) (r : list ascii + exn) : list ascii + exn :=
  match r with inl a => inl (c :: a) | inr e => inr e end.

Definition app_ok (l : list ascii) (r : list ascii + exn) : list ascii + exn :=
  match r with inl a => inl (l ++ a) | inr e => inr e end.

Definition has_percent (l : list ascii) : bool := existsb (fun c => Ascii.eqb c "%") l.

(** Where the [while rest:] loop of [_interpolate_some] stands: in plain
    text, just after a ['%'], or inside a ["%(name)s"] reference (the text
    [whole] from the ['%'] on is kept for the error messages). *)
Inductive interp_mode :=
  | INorm
  | IPct (whole : list ascii)
  | IName (whole name : list ascii).

Definition bad_reference : string := "bad interpolation variable reference %r".
Definition bad_percent : string := "'%%' must be followed by '%%' or '(', found: %r".

Section Interpolation.

Variables (option_ section rawval : string) (map_ : string -> option string).

(** The [while rest:] loop of [BasicInterpolation._interpolate_some],
    character by character: ["%%"] gives ['%']; ["%(name)s"] ([_KEYCRE]: a
    non-empty name without [)], then [")s"]) gives [map[optionxform(name)]],
    itself interpolated one level deeper by [nested] when it contains ['%'];
    any other ['%'] is an [InterpolationSyntaxError]. *)
Fixpoint interp_loop (nested : list ascii -> list ascii + exn) (mode : interp_mode)
    (rest : list ascii) : list ascii + exn :=
  match mode, rest with
  | INorm, [] => inl []
  | INorm, c :: r =>
      if Ascii.eqb c "%" then interp_loop nested (IPct rest) r
      else cons_ok c (interp_loop nested INorm r)
  | IPct whole, [] => inr (InterpolationSyntaxError option_ section bad_percent (str whole))
  | IPct whole, c :: r =>
      if Ascii.eqb c "%" then cons_ok "%" (interp_loop nested INorm r)
      else if Ascii.eqb c "(" then interp_loop nested (IName whole []) r
      else inr (InterpolationSyntaxError option_ section bad_percent (str whole))
  | IName whole name, [] =>
      inr (InterpolationSyntaxError option_ section bad_reference (str whole))
  | IName whole name, c :: r =>
      if Ascii.eqb c ")" then
        match name, r with
        | _ :: _, c2 :: r' =>
            if Ascii.eqb c2 "s" then
              let var := optionxform (str (rev name)) in
              match map_ var with
              | None => inr (InterpolationMissingOptionError option_ section rawval var)
              | Some v =>
                  if has_percent (chars v) then
                    match nested (chars v) with
                    | inl a => app_ok a (interp_loop nested INorm r')
                    | inr e => inr e
                    end
                  else app_ok (chars v) (interp_loop nested INorm r')
              end
            else inr (InterpolationSyntaxError option_ section bad_reference (str whole))
        | _, _ => inr (InterpolationSyntaxError option_ section bad_reference (str whole))
        end
      else interp_loop nested (IName whole (c :: name)) r
  end%char.

(** [_interpolate_some]: [levels] is [MAX_INTERPOLATION_DEPTH + 1] minus
    the depth, so that at depth 11 the call raises
    [InterpolationDepthError] on entry. *)
Fixpoint interpolate_some (levels : nat) (rest : list ascii) : list ascii + exn :=
  match levels with
  | O => inr (InterpolationDepthError option_ section rawval)
  | S levels' => interp_loop (interpolate_some levels') INorm rest
  end.

End Interpolation.

(** [BasicInterpolation.before_get]: [_interpolate_some] at depth 1 over
    the map of the section's options and [DEFAULT]. *)
Definition before_get (cp : ConfigParser) (section option value : string)
    (opts : list (string * string)) : string + exn :=
  match interpolate_some option section value (section_get cp opts) 10 (chars value) with
  | inl l => inl (str l)
  | inr e => inr e
  end.

(** [conf_parser[section][key]]: [None] stands for the [KeyError(key)] of
    a missing option, otherwise the interpolated value or its error. *)
Definition section_value (cp : ConfigParser) (section : string) (opts : list (string * string))
    (k : string) : option (string + exn) :=
  match section_get cp opts k with
  | None => None
  | Some raw => Some (before_get cp section k raw opts)
  end.

(** The [for] loop of [_load_accounts]. *)
Fixpoint load_sections (cp : ConfigParser) (_accounts : gmap string string)
    (secs : list (string * list (string * string))) : gmap string string + exn :=
  match secs with
  | [] => inl _accounts
  | (section, account_conf) :: secs' =>
      match section_value cp section account_conf "iban" with
      | None => inr (KeyError "iban")
      | Some (inr e) => inr e
      | Some (inl _acc_iban) =>
          let name_ := match section_value cp section account_conf "name" with
                       | Some r => r
                       | None => inl _acc_iban
                       end in
          match name_ with
          | inr e => inr e
          | inl name => load_sections cp (<[_acc_iban := name]> _accounts) secs'
          end
      end
  end%string.

(** [_load_accounts()] *)
Definition _load_accounts (cp : ConfigParser) : gmap string string + exn :=
  load_sections cp ∅ (sections cp).

(** The name a section registers for its IBAN. *)
Definition section_name (cp : ConfigParser) (section : string) (opts : list (string * string))
    (iban : string) : string :=
  match section_value cp section opts "name" with Some (inl n) => n | _ => iban end.

(** An [InterpolationError]. *)
Definition is_interpolation_error (e : exn) : Prop :=
  match e with
  | InterpolationSyntaxError _ _ _ _ | InterpolationMissingOptionError _ _ _ _
  | InterpolationDepthError _ _ _ => True
  | _ => False
  end.

(** An option whose value contains no ['%']. *)
Definition value_plain (kv : string * string) : Prop := has_percent (chars (snd kv)) = false.

(** No option value of the configuration contains ['%']. *)
Definition no_percent (cp : ConfigParser) : Prop :=
  Forall value_plain (defaults cp) /\
  Forall (fun so => Forall value_plain (snd so)) (sections cp).

(** [new] keeps the accounts of [old] in order, possibly followed by new
    ones, and each group of [old] is a prefix of the same account's group
    in [new]. *)
Definition groups_grow (old new : list (string * list string)) : Prop :=
  (exists ext, map fst new = map fst old ++ ext) /\
  forall a l, al_lookup a old = Some l -> exists l', al_lookup a new = Some (l ++ l').

(** A section with no [iban] option, neither its own nor from [DEFAULT]. *)
Definition lacks_iban (cp : ConfigParser) (so : string * list (string * string)) : Prop :=
  section_get cp (snd so) "iban"%string = None.

(** A section that gives [k] as its [iban]. *)
Definition registers (cp : ConfigParser) (k : string) (so : string * list (string * string)) : Prop :=
  section_value cp (fst so) (snd so) "iban"%string = Some (inl k).

(** The same transfer as [sample_transfer], from the statement of the
    other account. *)
Definition sample_transfer_mirror : Ntry :=
  mkNtry jan2 (mkFloat false 1250) "CRDT"
    "/TRTP/SEPA OVERBOEKING/IBAN/NL01ABNA0000000001/NAME/J SMITH/REMI/rent/EREF/NOTPROVIDED".

Definition sample_card_caps : captures :=
  match rsearch BEA_re (chars (AddtlNtryInf sample_card)) with Some cs => cs | None => [] end.

(** Two sections for the same IBAN, and one without a [name]. *)
Definition sample_config : ConfigParser :=
  mkConfig []
    [("checking", [("iban", "NL01ABNA0000000001"); ("name", "Checking")]);
     ("savings", [("iban", "NL02ABNA0000000002")]);
     ("joint", [("iban", "NL01ABNA0000000001"); ("name", "Joint")])]%string.

(** A [name] with a bare ['%'], which [BasicInterpolation] refuses. *)
Definition sample_config_percent : ConfigParser :=
  mkConfig []
    [("checking", [("iban", "NL01ABNA0000000001"); ("name", "Rent 100%")])]%string.

(* ================================================================== *)
(** * Properties *)

(** ** Record equality *)

Lemma opt_eqb_eq (a b : option string) : opt_eqb a b = true <-> a = b.
Proof.
  destruct a as [x|], b as [y|]; simpl; split; intros H; try congruence.
  - apply String.eqb_eq in H. congruence.
  - inversion H; subst. apply String.eqb_refl.
Qed.

Lemma opt_eqb_refl (a : option string) : opt_eqb a a = true.
Proof. apply opt_eqb_eq. reflexivity. Qed.

Lemma datetime_eqb_eq (a b : datetime) : datetime_eqb a b = true <-> a = b.
Proof.
  destruct a, b; unfold datetime_eqb; simpl.
  rewrite !andb_true_iff, !Nat.eqb_eq. split.
  - intros [[-> ->] ->]. reflexivity.
  - intros H; inversion H; auto.
Qed.

Lemma float_eqb_iff (x y : pyfloat) :
  float_eqb x y = true <-> fmag x = fmag y /\ (fmag x = 0%N \/ fneg x = fneg y).
Proof.
  unfold float_eqb. rewrite andb_true_iff, orb_true_iff, !N.eqb_eq.
  split; intros [H1 H2]; split; auto; destruct H2 as [H2|H2]; auto;
    right; [apply Bool.eqb_prop | apply Bool.eqb_true_iff]; exact H2.
Qed.

Lemma float_eqb_refl (x : pyfloat) : float_eqb x x = true.
Proof. apply float_eqb_iff. auto. Qed.

Lemma float_neg_involutive (x : pyfloat) : float_neg (float_neg x) = x.
Proof. destruct x as [b m]. unfold float_neg. simpl. rewrite Bool.negb_involutive. reflexivity. Qed.

(** [__eq__] holds exactly when the seven compared fields agree, the
    amounts as floats ([0.0 == -0.0]). *)
Lemma trsx_eqb_iff (s o : Trsx) :
  trsx_eqb s o = true <->
  source_iban s = source_iban o /\ dest_iban s = dest_iban o /\ type s = type o /\
  date s = date o /\ float_eqb (amount s) (amount o) = true /\ payee s = payee o /\
  memo s = memo o.
Proof.
  unfold trsx_eqb. rewrite !andb_true_iff, !String.eqb_eq, !opt_eqb_eq,
    datetime_eqb_eq. tauto.
Qed.

Lemma trsx_eqb_refl (t : Trsx) : trsx_eqb t t = true.
Proof. apply trsx_eqb_iff. repeat split; auto using float_eqb_refl. Qed.

Lemma string_app_inv_l (p x y : string) : (p ++ x = p ++ y)%string -> x = y.
Proof. induction p as [|c p IH]; simpl; [auto|]. intros H. inversion H. auto. Qed.

Lemma string_length_app (x y : string) :
  String.length (x ++ y) = String.length x + String.length y.
Proof. induction x as [|c x IH]; simpl; [reflexivity|]. rewrite IH. reflexivity. Qed.

Lemma string_app_nil_r (x : string) : (x ++ "")%string = x.
Proof.
  induction x as [|c x IH]; [reflexivity|].
  change (String c (x ++ "") = String c x)%string. rewrite IH. reflexivity.
Qed.

Lemma string_app_inv_r (x y s : string) : (x ++ s = y ++ s)%string -> x = y.
Proof.
  revert y. induction x as [|c x IH]; intros y H; destruct y as [|c' y]; simpl in H.
  - reflexivity.
  - apply (f_equal String.length) in H. rewrite !string_length_app in H. simpl in H. lia.
  - apply (f_equal String.length) in H. rewrite !string_length_app in H. simpl in H. lia.
  - inversion H. f_equal. auto.
Qed.

(** Two floats of equal magnitude print alike only with equal signs. *)
Lemma str_float_inj (x y : pyfloat) :
  fmag x = fmag y -> str_float x = str_float y -> x = y.
Proof.
  destruct x as [bx m], y as [bY m']. simpl. intros <-. unfold str_float. simpl.
  set (R := (str (digitsN (m / 100)) ++ _)%string).
  destruct bx, bY; simpl; intros H; auto;
    apply (f_equal String.length) in H; simpl in H; lia.
Qed.

(** The set's membership test: same hash string and [__eq__], which is
    the same as identical compared fields. *)
Lemma same_entry_iff (a b : Trsx) : same_entry a b = true <-> same_fields a b.
Proof.
  unfold same_entry, same_fields. rewrite andb_true_iff, String.eqb_eq, trsx_eqb_iff.
  split.
  - intros [Hh (H1 & H2 & H3 & H4 & H5 & H6 & H7)]. repeat split; auto.
    apply float_eqb_iff in H5 as [Hm _]. apply str_float_inj; [exact Hm|].
    unfold hash_key in Hh. rewrite H1, H2, H4, H7 in Hh.
    apply string_app_inv_l in Hh. apply string_app_inv_l in Hh.
    apply string_app_inv_l in Hh. apply string_app_inv_l in Hh.
    apply string_app_inv_l in Hh. apply string_app_inv_l in Hh.
    exact (string_app_inv_r _ _ _ Hh).
  - intros (H1 & H2 & H3 & H4 & H5 & H6 & H7). split.
    + unfold hash_key. rewrite H1, H2, H4, H5, H7. reflexivity.
    + repeat split; auto. rewrite H5. apply float_eqb_refl.
Qed.

Lemma same_entry_refl (t : Trsx) : same_entry t t = true.
Proof. apply same_entry_iff. repeat split. Qed.

Lemma same_entry_sym (a b : Trsx) : same_entry a b = same_entry b a.
Proof.
  apply eq_true_iff_eq. rewrite !same_entry_iff. unfold same_fields. intuition congruence.
Qed.

Lemma same_entry_trans (a b c : Trsx) :
  same_entry a b = true -> same_entry b c = true -> same_entry a c = true.
Proof. rewrite !same_entry_iff. unfold same_fields. intuition congruence. Qed.

Lemma same_entry_eqb (a b : Trsx) : same_entry a b = true -> trsx_eqb a b = true.
Proof. unfold same_entry. rewrite andb_true_iff. tauto. Qed.

Lemma py_in_same (t : Trsx) (s : list Trsx) : py_in t s = existsb (same_entry t) s.
Proof. reflexivity. Qed.

Lemma py_in_trans (s : list Trsx) (a b : Trsx) :
  same_entry a b = true -> py_in b s = true -> py_in a s = true.
Proof.
  unfold py_in. intros E P. apply existsb_exists in P as [y [Hy Ey]].
  apply existsb_exists. exists y. split; [exact Hy | exact (same_entry_trans _ _ _ E Ey)].
Qed.

Section Props.

Variable accounts : gmap string string.

(** [complementary] on a transfer, as a record. *)
Lemma complementary_transfer (t : Trsx) (d : string) :
  dest_iban t = Some d -> is_transfer_transaction accounts t = true ->
  complementary accounts t =
    inl {| source_iban := d; dest_iban := Some (source_iban t); type := type t;
           date := date t; amount := float_neg (amount t); payee := payee t;
           memo := memo t; transaction_desc := transaction_desc t |}.
Proof.
  intros Hd Ht. unfold complementary. rewrite Ht, Hd. reflexivity.
Qed.

(** ** Claim C7: [complementary] *)

(** C7. For a transfer record, [complementary] returns a new record with
    source and counter account swapped, the amount negated, and kind, date,
    payee, memo and raw narrative copied; for a non-transfer record it
    raises [ValueError] instead of returning a record. *)
Theorem complementary_spec (t : Trsx) :
  (forall d, dest_iban t = Some d -> is_transfer_transaction accounts t = true ->
     complementary accounts t =
       inl {| source_iban := d; dest_iban := Some (source_iban t); type := type t;
              date := date t; amount := float_neg (amount t); payee := payee t;
              memo := memo t; transaction_desc := transaction_desc t |}) /\
  (is_transfer_transaction accounts t = false ->
     exists msg, complementary accounts t = inr (ValueError msg)).
Proof.
  unfold complementary. split.
  - intros d Hd Ht. rewrite Ht, Hd. reflexivity.
  - intros Ht. rewrite Ht. simpl. eexists. reflexivity.
Qed.

(** ** Claim C3: complement of a transfer *)

(** C3 (amended). For a transfer record [t] whose own source account is
    also in the registry, the complement is a transfer, its amount is the
    negated amount of [t] ([amount * -1]), and the complement of the
    complement is [__eq__] to [t] (it is [t] itself). When the source
    account of a transfer [t] is not in the registry, its complement is not
    a transfer, and complementing it again raises [ValueError]. *)
Theorem complementary_involutive :
  (forall t c : Trsx,
     is_transfer_transaction accounts t = true ->
     is_Some (accounts !! source_iban t) ->
     complementary accounts t = inl c ->
     is_transfer_transaction accounts c = true /\ amount c = float_neg (amount t) /\
     exists c2, complementary accounts c = inl c2 /\ trsx_eqb c2 t = true /\ c2 = t) /\
  (forall t c : Trsx,
     is_transfer_transaction accounts t = true ->
     accounts !! source_iban t = None ->
     complementary accounts t = inl c ->
     is_transfer_transaction accounts c = false /\
     exists msg, complementary accounts c = inr (ValueError msg)).
Proof.
  split.
  - intros t c Ht [n Hs] Hc.
    destruct (dest_iban t) as [d|] eqn:Hd.
    2:{ unfold is_transfer_transaction in Ht. rewrite Hd in Ht. discriminate. }
    rewrite (complementary_transfer t d Hd Ht) in Hc. inversion Hc; subst c; clear Hc.
    assert (Hc : is_transfer_transaction accounts
      {| source_iban := d; dest_iban := Some (source_iban t); type := type t; date := date t;
         amount := float_neg (amount t); payee := payee t; memo := memo t;
         transaction_desc := transaction_desc t |} = true).
    { unfold is_transfer_transaction. simpl. rewrite Hs. reflexivity. }
    split; [exact Hc|]. split; [reflexivity|].
    exists t. split; [|split; [apply trsx_eqb_refl | reflexivity]].
    rewrite (complementary_transfer _ (source_iban t)); [|reflexivity | exact Hc].
    simpl. rewrite float_neg_involutive, <- Hd. destruct t. reflexivity.
  - intros t c Ht Hs Hc.
    destruct (dest_iban t) as [d|] eqn:Hd.
    2:{ unfold is_transfer_transaction in Ht. rewrite Hd in Ht. discriminate. }
    rewrite (complementary_transfer t d Hd Ht) in Hc. inversion Hc; subst c; clear Hc.
    assert (Hc : is_transfer_transaction accounts
      {| source_iban := d; dest_iban := Some (source_iban t); type := type t; date := date t;
         amount := float_neg (amount t); payee := payee t; memo := memo t;
         transaction_desc := transaction_desc t |} = false).
    { unfold is_transfer_transaction. simpl. rewrite Hs. reflexivity. }
    split; [exact Hc|]. unfold complementary. rewrite Hc. eexists. reflexivity.
Qed.

(** ** Claim C6: sign of the amount *)

(** C6. The record built by [process_entry] carries the value [Amt],
    negated ([amount *= -1]) when the indicator is [DBIT] and unchanged
    otherwise. *)
Theorem process_entry_amount_sign (iban : string) (elem : Ntry) (t : Trsx) :
  process_entry iban elem = inl t ->
  amount t = if String.eqb (CdtDbtInd elem) "DBIT" then float_neg (Amt elem) else Amt elem.
Proof.
  unfold process_entry. intros H.
  destruct (_get_regex (AddtlNtryInf elem)) as [[ty m]|]; [|discriminate].
  destruct (String.eqb ty "bea"); [inversion H; subst; reflexivity|].
  destruct (String.eqb ty "sepa"); [inversion H; subst; reflexivity|].
  destruct (String.eqb ty "abn"); [inversion H; subst; reflexivity|].
  destruct (String.eqb ty "sparen"); [inversion H; subst; reflexivity|].
  discriminate.
Qed.

(** ** Claim C5: unrecognised narratives *)

(** C5. A narrative none of [BEA_re], [SEPA_re], [ABN_re], [SPAREN_re]
    finds raises [ValueError] in [process_entry], and the run stops there
    with that error: the entry is never skipped. *)
Theorem unrecognized_narrative_fails (iban : string) (elem : Ntry) :
  rsearch BEA_re (chars (AddtlNtryInf elem)) = None ->
  rsearch SEPA_re (chars (AddtlNtryInf elem)) = None ->
  rsearch ABN_re (chars (AddtlNtryInf elem)) = None ->
  rsearch SPAREN_re (chars (AddtlNtryInf elem)) = None ->
  let err := ValueError ("Transaction type not supported for " ++ dq ++ AddtlNtryInf elem ++ dq) in
  process_entry iban elem = inr err /\
  forall rest st, run accounts ((iban, elem) :: rest) st = (inr err, st).
Proof.
  intros H1 H2 H3 H4 err.
  assert (He : process_entry iban elem = inr err).
  { unfold process_entry, _get_regex. simpl. rewrite H1, H2, H3, H4. reflexivity. }
  split; [exact He|].
  intros rest st. simpl. unfold bind, process_one, bind, lift. rewrite He. reflexivity.
Qed.

End Props.

(** ** Tag extraction *)

Lemma scan_mend_pos (s : list ascii) (i skip : nat) (m : marker) :
  In m (scan s i skip) -> 0 < mend m.
Proof.
  revert i skip. induction s as [|c s IH]; intros i skip Hin; simpl in Hin; [contradiction|].
  destruct skip as [|k].
  - destruct (marker_at (c :: s)) as [t|].
    + destruct Hin as [<- | Hin]; [simpl; lia | exact (IH _ _ Hin)].
    + exact (IH _ _ Hin).
  - exact (IH _ _ Hin).
Qed.

(** Delimiters of other tags before the first [field] delimiter are
    passed over. *)
Lemma sepa_loop_skip (info : list ascii) (field : string) (pre l : list marker) :
  Forall (fun x => mtag x <> field) pre ->
  sepa_loop info field None (pre ++ l) = sepa_loop info field None l.
Proof.
  induction pre as [|x pre IH]; intros F; [reflexivity|].
  apply List.Forall_cons_iff in F as [Hx F']. simpl.
  replace (String.eqb (mtag x) field) with false by (symmetry; apply String.eqb_neq; exact Hx).
  exact (IH F').
Qed.

(** A run of [field] delimiters sets [start] to the end of its last one. *)
Lemma sepa_loop_run (info : list ascii) (field : string) (st : option nat) (run : list marker)
    (m : marker) (l : list marker) :
  Forall (fun x => mtag x = field) run -> mtag m = field ->
  sepa_loop info field st (run ++ m :: l) = sepa_loop info field (Some (mend m)) l.
Proof.
  revert st. induction run as [|x run IH]; intros st F Hm; simpl.
  - rewrite Hm, String.eqb_refl. reflexivity.
  - apply List.Forall_cons_iff in F as [Hx F']. rewrite Hx, String.eqb_refl. exact (IH _ F' Hm).
Qed.

Lemma sepa_loop_all_field (info : list ascii) (field : string) (st : option nat)
    (l : list marker) :
  Forall (fun x => mtag x = field) l -> sepa_loop info field st l = None.
Proof.
  revert st. induction l as [|x l IH]; intros st F; [reflexivity|].
  apply List.Forall_cons_iff in F as [Hx F']. simpl. rewrite Hx, String.eqb_refl. exact (IH _ F').
Qed.

(** C10 (defect). On a narrative [SEPA_re] finds, when the tag occurs
    (first at a run of consecutive delimiters of the tag ending with [m])
    and a different delimiter [next] follows the run, the value is the text
    between [m] and [next], as the claim says; but when no different
    delimiter follows the run, nothing is returned, although the claim
    gives the text after the last occurrence. So
    [/TRTP/SEPA/REMI/a/REMI/b] requesting [REMI] gives nothing, not [b];
    with a following delimiter the claim's examples give [b] and [a]; the
    claim's strings as written contain no [/TRTP/] and give nothing. *)
Theorem find_sepa_field_run_rule :
  (forall (transaction_info field : string) (pre run : list marker) (m next : marker)
          (rest : list marker),
     is_match (rsearch SEPA_re (chars transaction_info)) = true ->
     markers (chars transaction_info) = pre ++ run ++ m :: next :: rest ->
     Forall (fun x => mtag x <> field) pre -> Forall (fun x => mtag x = field) run ->
     mtag m = field -> mtag next <> field ->
     find_sepa_field transaction_info field =
     Some (str (py_slice (chars transaction_info) (mend m) (mstart next)))) /\
  (forall (transaction_info field : string) (pre run : list marker) (m : marker),
     markers (chars transaction_info) = pre ++ m :: run ->
     Forall (fun x => mtag x <> field) pre -> mtag m = field ->
     Forall (fun x => mtag x = field) run ->
     find_sepa_field transaction_info field = None) /\
  find_sepa_field "/TRTP/SEPA/REMI/a/REMI/b" "REMI" = None /\
  find_sepa_field "/TRTP/SEPA/REMI/a/REMI/b/IBAN/x" "REMI" = Some "b" /\
  find_sepa_field "/TRTP/SEPA/REMI/a/IBAN/x/REMI/b/EREF/y" "REMI" = Some "a" /\
  find_sepa_field "/REMI/a/REMI/b/IBAN/x" "REMI" = None /\
  find_sepa_field "/REMI/a/IBAN/x/REMI/b/EREF/y" "REMI" = None.
Proof.
  split; [|split; [|repeat split; vm_compute; reflexivity]].
  - intros info field pre run m next rest Hs Hm Fp Fr Tm Tn.
    unfold find_sepa_field. rewrite Hs, Hm, sepa_loop_skip by exact Fp.
    rewrite sepa_loop_run by assumption. simpl.
    replace (String.eqb (mtag next) field) with false by (symmetry; apply String.eqb_neq; exact Tn).
    assert (P : 0 < mend m).
    { apply (scan_mend_pos (chars info) 0 0). fold (markers (chars info)). rewrite Hm.
      apply in_or_app. right. apply in_or_app. right. left. reflexivity. }
    unfold truthy. replace (mend m =? 0) with false by (symmetry; apply Nat.eqb_neq; lia).
    reflexivity.
  - intros info field pre run m Hm Fp Tm Fr.
    unfold find_sepa_field. destruct (is_match _); [|reflexivity].
    rewrite Hm, sepa_loop_skip by exact Fp. simpl. rewrite Tm, String.eqb_refl.
    apply sepa_loop_all_field. exact Fr.
Qed.

(** C4 (defect). A tag whose delimiter is the last one of the narrative
    occurs, yet [find_sepa_field] returns [None]: the loop only returns
    when a later delimiter follows. *)
Theorem find_sepa_field_last_tag_lost :
  In "IBAN"%string (map mtag (markers (chars "/TRTP/SEPA/IBAN/NL00BANK0123456789"))) /\
  is_match (rsearch SEPA_re (chars "/TRTP/SEPA/IBAN/NL00BANK0123456789")) = true /\
  find_sepa_field "/TRTP/SEPA/IBAN/NL00BANK0123456789" "IBAN" = None.
Proof. split; [vm_compute; right; left; reflexivity | split; vm_compute; reflexivity]. Qed.

(** ** List facts for the per-account grouping *)

Lemma existsb_filter_neq (a x : string) (l : list string) :
  a <> x ->
  existsb (String.eqb a) (List.filter (fun y => negb (String.eqb x y)) l) = existsb (String.eqb a) l.
Proof.
  intros Hax. induction l as [|y l IH]; [reflexivity|].
  cbn [List.filter existsb]. destruct (String.eqb x y) eqn:Exy; cbn [negb existsb].
  - apply String.eqb_eq in Exy; subst y.
    replace (String.eqb a x) with false by (symmetry; apply String.eqb_neq; exact Hax).
    exact IH.
  - rewrite IH. reflexivity.
Qed.

Lemma existsb_firsts (a : string) (l : list string) :
  existsb (String.eqb a) (firsts l) = existsb (String.eqb a) l.
Proof.
  induction l as [|x l IH]; simpl; [reflexivity|].
  destruct (String.eqb a x) eqn:E; simpl; [reflexivity|].
  rewrite existsb_filter_neq; [exact IH|]. apply String.eqb_neq. exact E.
Qed.

Lemma firsts_snoc (l : list string) (x : string) :
  firsts (l ++ [x]) = if existsb (String.eqb x) l then firsts l else firsts l ++ [x].
Proof.
  induction l as [|y l IH]; simpl; [reflexivity|].
  rewrite IH. destruct (existsb (String.eqb x) l) eqn:E.
  - rewrite orb_true_r. reflexivity.
  - rewrite orb_false_r, List.filter_app. simpl. rewrite (String.eqb_sym y x).
    destruct (String.eqb x y); simpl; [rewrite app_nil_r|]; reflexivity.
Qed.

Lemma firsts_In (a : string) (l : list string) : In a (firsts l) -> In a l.
Proof.
  intros H.
  assert (E : existsb (String.eqb a) l = true).
  { rewrite <- existsb_firsts. apply existsb_exists. exists a. split; [exact H | apply String.eqb_refl]. }
  apply existsb_exists in E as [y [Hy Ey]]. apply String.eqb_eq in Ey. subst y. exact Hy.
Qed.

Lemma al_mem_map {V} (a : string) (g : string -> V) (l : list string) :
  al_mem a (map (fun x => (x, g x)) l) = existsb (String.eqb a) l.
Proof. unfold al_mem. induction l as [|x l IH]; simpl; [reflexivity | rewrite IH; reflexivity]. Qed.

Lemma al_update_absent {V} (k : string) (f : V -> V) (l : list (string * V)) :
  al_mem k l = false -> al_update k f l = l.
Proof.
  unfold al_mem, al_update. induction l as [|kv l IH]; simpl; intros H; [reflexivity|].
  apply orb_false_iff in H as [H1 H2]. rewrite H1, IH by exact H2. reflexivity.
Qed.

Lemma al_mem_grouped (accounts : gmap string string) (a : string) (acc : list Trsx) :
  al_mem a (grouped accounts acc) = existsb (String.eqb a) (map source_iban acc).
Proof. unfold grouped. rewrite al_mem_map. apply existsb_firsts. Qed.

Lemma filter_src_app (a : string) (acc : list Trsx) (t : Trsx) :
  List.filter (fun u => String.eqb (source_iban u) a) (acc ++ [t]) =
  List.filter (fun u => String.eqb (source_iban u) a) acc ++
  (if String.eqb (source_iban t) a then [t] else []).
Proof. rewrite List.filter_app. reflexivity. Qed.

(** A record of an account already grouped goes at the end of its group. *)
Lemma grouped_snoc_old (accounts : gmap string string) (acc : list Trsx) (t : Trsx) :
  existsb (String.eqb (source_iban t)) (map source_iban acc) = true ->
  grouped accounts (acc ++ [t]) =
  al_update (source_iban t) (fun l => app l [block_of accounts t]) (grouped accounts acc).
Proof.
  intros H. unfold grouped, al_update. rewrite map_app. simpl. rewrite firsts_snoc, H, map_map.
  apply map_ext. intros a. simpl. rewrite filter_src_app.
  destruct (String.eqb (source_iban t) a); simpl; rewrite ?map_app, ?app_nil_r; reflexivity.
Qed.

(** A record of a new account opens a new group at the end. *)
Lemma grouped_snoc_new (accounts : gmap string string) (acc : list Trsx) (t : Trsx) :
  existsb (String.eqb (source_iban t)) (map source_iban acc) = false ->
  grouped accounts (acc ++ [t]) =
  grouped accounts acc ++ [(source_iban t, [header_of accounts (source_iban t); block_of accounts t])].
Proof.
  intros H. unfold grouped. rewrite map_app. simpl. rewrite firsts_snoc, H, map_app. simpl.
  f_equal.
  - apply map_ext_in. intros a Ha. rewrite filter_src_app.
    destruct (String.eqb (source_iban t) a) eqn:E; [|rewrite app_nil_r; reflexivity].
    apply String.eqb_eq in E. subst a. apply firsts_In in Ha.
    assert (existsb (String.eqb (source_iban t)) (map source_iban acc) = true) as C
      by (apply existsb_exists; exists (source_iban t); split; [exact Ha | apply String.eqb_refl]).
    congruence.
  - rewrite filter_src_app, String.eqb_refl.
    replace (List.filter (fun u => String.eqb (source_iban u) (source_iban t)) acc) with (@nil Trsx).
    + reflexivity.
    + clear -H. induction acc as [|u acc IH]; simpl in *; [reflexivity|].
      apply orb_false_iff in H as [H1 H2]. rewrite String.eqb_sym, H1. exact (IH H2).
Qed.

Lemma al_update_snoc_absent {V} (k : string) (f : V -> V) (l : list (string * V)) (v : V) :
  al_mem k l = false -> al_update k f (l ++ [(k, v)]) = l ++ [(k, f v)].
Proof.
  intros H. unfold al_update. rewrite map_app. fold (al_update k f l).
  rewrite al_update_absent by exact H. simpl. rewrite String.eqb_refl. reflexivity.
Qed.

Section Aggregator.

Variable accounts : gmap string string.

(** Rendering a record never raises: a transfer's counter account is in
    the registry by definition. *)
Lemma get_qif_tx_ok (t : Trsx) : get_qif_tx accounts t = inl (block_of accounts t).
Proof.
  unfold block_of. destruct (get_qif_tx accounts t) as [b|e] eqn:E; [reflexivity|].
  exfalso. unfold get_qif_tx in E.
  destruct (is_transfer_transaction accounts t) eqn:T; [|discriminate].
  unfold is_transfer_transaction in T. destruct (dest_iban t) as [d|]; [|discriminate].
  simpl in E. unfold _get_account in E. unfold is_match in T.
  destruct (accounts !! d); discriminate.
Qed.

(** [out += t] on an aggregator that holds exactly the accepted records
    [acc]: either [t] is in the set already and nothing but the skipped
    counter changes, or [t] is appended to [acc]. *)
Lemma iadd_step (acc : list Trsx) (st st' : QIFOutput.t) (t : Trsx) :
  QIFOutput.accounts st = grouped accounts acc ->
  QIFOutput.transaction_list st = rev acc ->
  QIFOutput.added st = length acc ->
  iadd accounts t st = (inl tt, st') ->
  let acc' := if py_in t (rev acc) then acc else acc ++ [t] in
  QIFOutput.accounts st' = grouped accounts acc' /\
  QIFOutput.transaction_list st' = rev acc' /\
  QIFOutput.added st' = length acc'.
Proof.
  intros Ha Hl Hn H acc'. subst acc'. unfold iadd in H. rewrite Hl in H.
  destruct (py_in t (rev acc)) eqn:D; cbn [negb] in H.
  - unfold modify in H. inversion H; subst st'; simpl. auto.
  - unfold bind, _get_list, lift, modify in H. rewrite Ha, al_mem_grouped in H.
    destruct (existsb (String.eqb (source_iban t)) (map source_iban acc)) eqn:M.
    + rewrite get_qif_tx_ok in H. inversion H; subst st'; simpl; rewrite ?Ha.
      rewrite grouped_snoc_old by exact M. rewrite Hl, Hn, rev_unit, length_app. simpl.
      split; [reflexivity | split; [reflexivity | lia]].
    + destruct (_get_account accounts (source_iban t)) as [name|e] eqn:G; [|discriminate].
      rewrite get_qif_tx_ok in H. inversion H; subst st'; simpl; rewrite ?Ha.
      rewrite grouped_snoc_new by exact M.
      unfold header_of. rewrite G.
      rewrite al_update_snoc_absent by (rewrite al_mem_grouped; exact M).
      rewrite al_update_snoc_absent by (rewrite al_mem_grouped; exact M). simpl.
      rewrite Hl, Hn, rev_unit, length_app. simpl.
      split; [reflexivity | split; [reflexivity | lia]].
Qed.

(** [iadd_all] from a state holding [acc] ends holding [acc] followed by
    the records it accepts. *)
Lemma iadd_all_accepts (ts : list Trsx) (acc : list Trsx) (st st' : QIFOutput.t) :
  QIFOutput.accounts st = grouped accounts acc ->
  QIFOutput.transaction_list st = rev acc ->
  QIFOutput.added st = length acc ->
  iadd_all accounts ts st = (inl tt, st') ->
  let acc' := acc ++ accept_seq (rev acc) ts in
  QIFOutput.accounts st' = grouped accounts acc' /\
  QIFOutput.transaction_list st' = rev acc' /\
  QIFOutput.added st' = length acc'.
Proof.
  revert acc st. induction ts as [|t ts IH]; intros acc st Ha Hl Hn H acc'; subst acc'.
  - simpl in H. inversion H; subst st'. simpl. rewrite app_nil_r. auto.
  - simpl in H. unfold bind in H.
    destruct (iadd accounts t st) as [[[]|e] st1] eqn:E; [|discriminate].
    pose proof (iadd_step acc st st1 t Ha Hl Hn E) as Hs. simpl in Hs. simpl.
    destruct (py_in t (rev acc)) eqn:D.
    + destruct Hs as (Ha1 & Hl1 & Hn1). exact (IH acc st1 Ha1 Hl1 Hn1 H).
    + destruct Hs as (Ha1 & Hl1 & Hn1).
      pose proof (IH (acc ++ [t]) st1 Ha1 Hl1 Hn1 H) as R. simpl in R.
      rewrite rev_unit in R. rewrite <- app_assoc in R. exact R.
Qed.

(** [out += t] raising on an aggregator that holds exactly [acc]: the
    [KeyError] of an unregistered source account, and an empty group for
    that account at the end. *)
Lemma iadd_step_err (acc : list Trsx) (st st' : QIFOutput.t) (t : Trsx) (e : exn) :
  QIFOutput.accounts st = grouped accounts acc ->
  iadd accounts t st = (inr e, st') ->
  e = KeyError (source_iban t) /\
  st' = set_accounts (grouped accounts acc ++ [(source_iban t, [])]) st.
Proof.
  intros Ha. unfold iadd. destruct (py_in t (QIFOutput.transaction_list st)); cbn [negb].
  - unfold modify. discriminate.
  - unfold bind, _get_list, lift, modify.
    destruct (al_mem (source_iban t) (QIFOutput.accounts st)).
    + rewrite get_qif_tx_ok. discriminate.
    + unfold _get_account at 1. destruct (accounts !! source_iban t).
      * rewrite get_qif_tx_ok. discriminate.
      * intros H. inversion H; subst. rewrite Ha. auto.
Qed.

(** [iadd_all] raising from a state holding [acc]: some record [t] raises
    the [KeyError] of its source account after the records before it were
    added, and the state holds [acc], the records accepted from those, and
    an empty group for the source account of [t]. *)
Lemma iadd_all_accepts_err (ts : list Trsx) (acc : list Trsx) (st st' : QIFOutput.t) (e : exn) :
  QIFOutput.accounts st = grouped accounts acc ->
  QIFOutput.transaction_list st = rev acc ->
  QIFOutput.added st = length acc ->
  iadd_all accounts ts st = (inr e, st') ->
  exists pre t post, ts = pre ++ t :: post /\ e = KeyError (source_iban t) /\
    let acc' := acc ++ accept_seq (rev acc) pre in
    QIFOutput.accounts st' = grouped accounts acc' ++ [(source_iban t, [])] /\
    QIFOutput.added st' = length acc'.
Proof.
  revert acc st. induction ts as [|t ts IH]; intros acc st Ha Hl Hn H.
  - simpl in H. discriminate.
  - simpl in H. unfold bind in H.
    destruct (iadd accounts t st) as [[[]|e1] st1] eqn:E.
    + pose proof (iadd_step acc st st1 t Ha Hl Hn E) as Hs. simpl in Hs.
      destruct (py_in t (rev acc)) eqn:D.
      * destruct Hs as (Ha1 & Hl1 & Hn1).
        destruct (IH acc st1 Ha1 Hl1 Hn1 H) as (pre & t' & post & -> & He & R).
        exists (t :: pre), t', post. split; [reflexivity|]. split; [exact He|].
        simpl. rewrite D. exact R.
      * destruct Hs as (Ha1 & Hl1 & Hn1).
        destruct (IH (acc ++ [t]) st1 Ha1 Hl1 Hn1 H) as (pre & t' & post & -> & He & R).
        exists (t :: pre), t', post. split; [reflexivity|]. split; [exact He|].
        simpl. rewrite D. simpl in R. rewrite rev_unit in R. rewrite <- app_assoc in R.
        exact R.
    + inversion H; subst e1 st1.
      destruct (iadd_step_err acc st st' t e Ha E) as [He ->].
      exists [], t, ts. split; [reflexivity|]. split; [exact He|].
      simpl. rewrite app_nil_r. split; [reflexivity | exact Hn].
Qed.

End Aggregator.

Section AggregatorClaims.

Variable accounts : gmap string string.

(** The outcome of one successful [out += t]. *)
Lemma iadd_outcome (st st' : QIFOutput.t) (t : Trsx) :
  iadd accounts t st = (inl tt, st') ->
  if py_in t (QIFOutput.transaction_list st) then
    st' = QIFOutput.mk (QIFOutput.accounts st) (QIFOutput.transaction_list st)
                       (QIFOutput.added st) (S (QIFOutput.skipped st))
  else
    QIFOutput.transaction_list st' = t :: QIFOutput.transaction_list st /\
    QIFOutput.added st' = S (QIFOutput.added st) /\
    QIFOutput.skipped st' = QIFOutput.skipped st.
Proof.
  unfold iadd. destruct (py_in t (QIFOutput.transaction_list st)); cbn [negb].
  - unfold modify. intros H. inversion H. reflexivity.
  - unfold bind, _get_list, lift, modify.
    destruct (al_mem (source_iban t) (QIFOutput.accounts st)).
    + rewrite get_qif_tx_ok. intros H. inversion H; subst st'. simpl. auto.
    + destruct (_get_account accounts (source_iban t)); [|discriminate].
      rewrite get_qif_tx_ok. intros H. inversion H; subst st'. simpl. auto.
Qed.

Lemma iadd_when_present (st : QIFOutput.t) (t : Trsx) :
  py_in t (QIFOutput.transaction_list st) = true ->
  iadd accounts t st =
  (inl tt, QIFOutput.mk (QIFOutput.accounts st) (QIFOutput.transaction_list st)
                        (QIFOutput.added st) (S (QIFOutput.skipped st))).
Proof. unfold iadd. intros H. rewrite H. reflexivity. Qed.

(** After adding [r1], the set answers for [r2] as before, or [true] when
    [r2] has the fields of [r1]. *)
Lemma py_in_after_iadd (st st1 : QIFOutput.t) (r1 r2 : Trsx) :
  iadd accounts r1 st = (inl tt, st1) ->
  py_in r2 (QIFOutput.transaction_list st1) =
  same_entry r2 r1 || py_in r2 (QIFOutput.transaction_list st).
Proof.
  intros H. pose proof (iadd_outcome st st1 r1 H) as O.
  destruct (py_in r1 (QIFOutput.transaction_list st)) eqn:P.
  - subst st1. simpl. destruct (same_entry r2 r1) eqn:E; [|reflexivity]. simpl.
    exact (py_in_trans _ _ _ E P).
  - destruct O as [-> _]. reflexivity.
Qed.

Lemma concat_empty_snoc (l : list string) :
  String.concat "" (l ++ [""%string]) = String.concat "" l.
Proof.
  induction l as [|x [|y l] IH]; [reflexivity | |].
  - simpl. rewrite !string_app_nil_r. reflexivity.
  - change (String.concat "" ((x :: y :: l) ++ [""%string]))
      with (x ++ "" ++ String.concat "" ((y :: l) ++ [""%string]))%string.
    rewrite IH. reflexivity.
Qed.

(** C1 (amended). After [r1] has been added, adding [r2] is treated as a
    duplicate (only the skipped counter moves) when [r2] has exactly the
    seven compared fields of [r1] (source, counter account, kind, date,
    amount, payee, memo; the amount also in the sign of a zero, since the
    hash prints it) or was already a duplicate before; otherwise it is
    inserted, even when it shares the five hashed fields with [r1]. *)
Theorem iadd_duplicate_iff_equal (st st1 st2 : QIFOutput.t) (r1 r2 : Trsx) :
  iadd accounts r1 st = (inl tt, st1) ->
  iadd accounts r2 st1 = (inl tt, st2) ->
  ((same_fields r2 r1 \/ py_in r2 (QIFOutput.transaction_list st) = true) ->
     QIFOutput.accounts st2 = QIFOutput.accounts st1 /\
     QIFOutput.transaction_list st2 = QIFOutput.transaction_list st1 /\
     QIFOutput.added st2 = QIFOutput.added st1 /\
     QIFOutput.skipped st2 = S (QIFOutput.skipped st1)) /\
  (~ same_fields r2 r1 -> py_in r2 (QIFOutput.transaction_list st) = false ->
     QIFOutput.transaction_list st2 = r2 :: QIFOutput.transaction_list st1 /\
     QIFOutput.added st2 = S (QIFOutput.added st1) /\
     QIFOutput.skipped st2 = QIFOutput.skipped st1).
Proof.
  intros H H2. pose proof (py_in_after_iadd st st1 r1 r2 H) as P.
  pose proof (iadd_outcome st1 st2 r2 H2) as O. rewrite P in O. split.
  - intros D. replace (same_entry r2 r1 || py_in r2 (QIFOutput.transaction_list st))
      with true in O.
    + subst st2. simpl. auto.
    + destruct D as [D|D]; [apply same_entry_iff in D; rewrite D | rewrite D, orb_true_r];
        reflexivity.
  - intros N D. replace (same_entry r2 r1 || py_in r2 (QIFOutput.transaction_list st))
      with false in O; [exact O|].
    rewrite D, orb_false_r. symmetry. apply not_true_iff_false.
    rewrite same_entry_iff. exact N.
Qed.

(** C8 (amended). Adding again a record with exactly the compared fields
    of the one just added (in particular the same record) only increments
    the skipped counter: the per-account lists, the set and the accepted
    counter are unchanged. A record that differs from it in any compared
    field (kind, payee, or only the sign of a zero amount) and was not in
    the set before is not in the set after the first add, and adding it
    increments the accepted counter. *)
Theorem iadd_same_record_twice (st st1 : QIFOutput.t) (r1 r2 : Trsx) :
  iadd accounts r1 st = (inl tt, st1) ->
  (same_fields r2 r1 ->
     iadd accounts r2 st1 =
     (inl tt, QIFOutput.mk (QIFOutput.accounts st1) (QIFOutput.transaction_list st1)
                           (QIFOutput.added st1) (S (QIFOutput.skipped st1)))) /\
  (~ same_fields r2 r1 -> py_in r2 (QIFOutput.transaction_list st) = false ->
     py_in r2 (QIFOutput.transaction_list st1) = false /\
     forall st2, iadd accounts r2 st1 = (inl tt, st2) ->
       QIFOutput.added st2 = S (QIFOutput.added st1) /\
       QIFOutput.skipped st2 = QIFOutput.skipped st1).
Proof.
  intros H. split.
  - intros E. apply iadd_when_present.
    rewrite (py_in_after_iadd st st1 r1 r2 H). apply same_entry_iff in E. rewrite E.
    reflexivity.
  - intros N D.
    assert (P : py_in r2 (QIFOutput.transaction_list st1) = false).
    { rewrite (py_in_after_iadd st st1 r1 r2 H), D, orb_false_r.
      apply not_true_iff_false. rewrite same_entry_iff. exact N. }
    split; [exact P|]. intros st2 H2. pose proof (iadd_outcome st1 st2 r2 H2) as O.
    rewrite P in O. destruct O as (_ & A & S'). auto.
Qed.

(** C9 (amended). After a sequence of adds that raises nothing, the
    aggregator holds one group per source account, in order of first
    acceptance; each group is the account header followed by the blocks of
    the accepted records of that account in insertion order (a record is
    accepted unless it is in the set: same hash and [__eq__]); [__exit__]
    prints the groups in that order. When an add raises (the [KeyError] of
    a record whose source account is not registered), the records before it
    are grouped in the same way and an empty group, without header, follows
    for the unregistered account; the document holds exactly the headers
    and blocks of the accepted records. *)
Theorem iadd_all_grouped (ts : list Trsx) (r : unit + exn) (st : QIFOutput.t) :
  iadd_all accounts ts QIFOutput.init = (r, st) ->
  (r = inl tt ->
     QIFOutput.accounts st = grouped accounts (accept_seq [] ts) /\
     QIFOutput.added st = length (accept_seq [] ts) /\
     exit_output st =
       String.concat "" (map (fun g => String.concat "" (map (fun e => e ++ nl) (snd g)))%string
                             (grouped accounts (accept_seq [] ts)))) /\
  (forall e, r = inr e ->
     exists pre t post, ts = pre ++ t :: post /\ e = KeyError (source_iban t) /\
       QIFOutput.accounts st = grouped accounts (accept_seq [] pre) ++ [(source_iban t, [])] /\
       QIFOutput.added st = length (accept_seq [] pre) /\
       exit_output st =
         String.concat "" (map (fun g => String.concat "" (map (fun e => e ++ nl) (snd g)))%string
                               (grouped accounts (accept_seq [] pre)))).
Proof.
  intros H. split.
  - intros ->.
    destruct (iadd_all_accepts accounts ts [] QIFOutput.init st eq_refl eq_refl eq_refl H)
      as (Ha & _ & Hn).
    simpl in Ha, Hn. split; [exact Ha | split; [exact Hn|]].
    unfold exit_output. rewrite Ha, map_map. reflexivity.
  - intros e ->.
    destruct (iadd_all_accepts_err accounts ts [] QIFOutput.init st e eq_refl eq_refl eq_refl H)
      as (pre & t & post & Hts & He & Ha & Hn).
    simpl in Ha, Hn. exists pre, t, post.
    split; [exact Hts | split; [exact He | split; [exact Ha | split; [exact Hn|]]]].
    unfold exit_output. rewrite Ha, !map_app, map_map. simpl. apply concat_empty_snoc.
Qed.

Lemma run_app (pre rest : list (string * Ntry)) (st0 st : QIFOutput.t) :
  run accounts pre st0 = (inl tt, st) ->
  run accounts (pre ++ rest) st0 = run accounts rest st.
Proof.
  revert st0. induction pre as [|[iban e] pre IH]; intros st0 H.
  - simpl in H. inversion H. reflexivity.
  - simpl in H |- *. unfold bind in H |- *.
    destruct (process_one accounts iban e st0) as [[[]|err] st1]; [|discriminate].
    exact (IH st1 H).
Qed.

Lemma process_one_entry_error (iban : string) (e : Ntry) (st : QIFOutput.t) (err : exn) :
  process_entry iban e = inr err -> process_one accounts iban e st = (inr err, st).
Proof. intros H. unfold process_one, bind, lift. rewrite H. reflexivity. Qed.

(** C2 (amended). When an entry fails after the entries before it were
    processed, [__exit__] still writes the document of the aggregator state
    reached at the failure (headers and blocks of every record accepted
    before the error), then the error propagates; for a narrative that
    fails classification, that state is the one before the failing entry. *)
Theorem failed_run_writes_accepted (pre post : list (string * Ntry)) (iban : string)
    (e : Ntry) (st : QIFOutput.t) :
  run accounts pre QIFOutput.init = (inl tt, st) ->
  (forall err st', process_one accounts iban e st = (inr err, st') ->
     main_run accounts (pre ++ (iban, e) :: post) = (inr err, exit_output st', st')) /\
  (forall err, process_entry iban e = inr err ->
     main_run accounts (pre ++ (iban, e) :: post) = (inr err, exit_output st, st)).
Proof.
  intros H.
  assert (G : forall err st', process_one accounts iban e st = (inr err, st') ->
            main_run accounts (pre ++ (iban, e) :: post) = (inr err, exit_output st', st')).
  { intros err st' E. unfold main_run. rewrite (run_app pre _ _ _ H). simpl.
    unfold bind at 1. rewrite E. reflexivity. }
  split; [exact G|].
  intros err E. apply G. apply process_one_entry_error. exact E.
Qed.

End AggregatorClaims.

(* ------------------------------------------------------------------ *)
(** ** Instances on the sample data, and counterexamples *)

Lemma complementary_spec_witness :
  dest_iban rec_transfer = Some "NL02ABNA0000000002"%string /\
  is_transfer_transaction sample_accounts rec_transfer = true /\
  complementary sample_accounts rec_transfer =
    inl {| source_iban := "NL02ABNA0000000002"; dest_iban := Some "NL01ABNA0000000001";
           type := "Bank"; date := jan2; amount := mkFloat false 1250; payee := Some "J SMITH";
           memo := Some "rent"; transaction_desc := "" |}%string.
Proof.
  split; [reflexivity|]. split; [vm_compute; reflexivity|].
  apply (proj1 (complementary_spec sample_accounts rec_transfer) "NL02ABNA0000000002"%string);
    vm_compute; reflexivity.
Defined.

(** C3 as stated fails when the source account of a transfer is not in
    the registry: the complement is then not a transfer. *)
Lemma complement_of_unregistered_source :
  is_transfer_transaction sample_accounts rec_unregistered_source = true /\
  exists c, complementary sample_accounts rec_unregistered_source = inl c /\
            is_transfer_transaction sample_accounts c = false.
Proof.
  split; [vm_compute; reflexivity|].
  eexists. split; [vm_compute; reflexivity | vm_compute; reflexivity].
Qed.

Lemma complementary_involutive_witness :
  (is_transfer_transaction sample_accounts rec_transfer_compl = true /\
   amount rec_transfer_compl = float_neg (amount rec_transfer) /\
   exists c2, complementary sample_accounts rec_transfer_compl = inl c2 /\
              trsx_eqb c2 rec_transfer = true /\ c2 = rec_transfer) /\
  (is_transfer_transaction sample_accounts rec_unregistered_compl = false /\
   exists msg, complementary sample_accounts rec_unregistered_compl = inr (ValueError msg)).
Proof.
  split.
  - apply (proj1 (complementary_involutive sample_accounts) rec_transfer rec_transfer_compl).
    + vm_compute. reflexivity.
    + exists "Checking"%string. vm_compute. reflexivity.
    + vm_compute. reflexivity.
  - apply (proj2 (complementary_involutive sample_accounts)
             rec_unregistered_source rec_unregistered_compl); vm_compute; reflexivity.
Defined.

Lemma process_entry_amount_sign_witness :
  process_entry "NL01ABNA0000000001" sample_card = inl sample_card_record /\
  amount sample_card_record = mkFloat true 399.
Proof.
  assert (H : process_entry "NL01ABNA0000000001" sample_card = inl sample_card_record)
    by (vm_compute; reflexivity).
  split; [exact H|].
  rewrite (process_entry_amount_sign "NL01ABNA0000000001" sample_card sample_card_record H).
  reflexivity.
Defined.

Lemma unrecognized_narrative_fails_witness :
  let err := ValueError ("Transaction type not supported for " ++ dq ++
                         AddtlNtryInf sample_unknown ++ dq)%string in
  process_entry "NL01ABNA0000000001" sample_unknown = inr err /\
  forall rest st,
    run sample_accounts (("NL01ABNA0000000001"%string, sample_unknown) :: rest) st = (inr err, st).
Proof.
  apply (unrecognized_narrative_fails sample_accounts); vm_compute; reflexivity.
Defined.

(** C1 as stated fails: [rec_a] and [rec_b] share the hashed fields but
    differ in payee, and both are inserted. *)
Lemma same_fingerprint_other_payee_inserted :
  hash_key rec_a = hash_key rec_b /\
  fst (iadd_all sample_accounts [rec_a; rec_b] QIFOutput.init) = inl tt /\
  QIFOutput.added (state_after sample_accounts [rec_a; rec_b]) = 2 /\
  QIFOutput.skipped (state_after sample_accounts [rec_a; rec_b]) = 0.
Proof. repeat split; vm_compute; reflexivity. Qed.

Lemma iadd_duplicate_iff_equal_witness :
  let st1 := state_after sample_accounts [rec_a] in
  let st2 := state_after sample_accounts [rec_a; rec_b] in
  iadd sample_accounts rec_a QIFOutput.init = (inl tt, st1) /\
  iadd sample_accounts rec_b st1 = (inl tt, st2) /\
  ~ same_fields rec_b rec_a /\
  QIFOutput.transaction_list st2 = rec_b :: QIFOutput.transaction_list st1 /\
  QIFOutput.added st2 = S (QIFOutput.added st1) /\
  QIFOutput.skipped st2 = QIFOutput.skipped st1.
Proof.
  intros st1 st2.
  assert (H1 : iadd sample_accounts rec_a QIFOutput.init = (inl tt, st1))
    by (vm_compute; reflexivity).
  assert (H2 : iadd sample_accounts rec_b st1 = (inl tt, st2)) by (vm_compute; reflexivity).
  assert (N : ~ same_fields rec_b rec_a).
  { rewrite <- same_entry_iff. vm_compute. discriminate. }
  split; [exact H1 | split; [exact H2 | split; [exact N|]]].
  exact (proj2 (iadd_duplicate_iff_equal sample_accounts _ _ _ rec_a rec_b H1 H2) N
           ltac:(vm_compute; reflexivity)).
Defined.

(** C1 as stated fails also on a zero amount: a credit of [0.00] and a
    debit of [0.00] ([-0.0]) are [__eq__], but their hashes print [0.0]
    and [-0.0], and both are inserted. *)
Lemma zero_sign_records_both_inserted :
  trsx_eqb rec_zero_credit rec_zero_debit = true /\
  hash_key rec_zero_credit <> hash_key rec_zero_debit /\
  fst (iadd_all sample_accounts [rec_zero_credit; rec_zero_debit] QIFOutput.init) = inl tt /\
  QIFOutput.added (state_after sample_accounts [rec_zero_credit; rec_zero_debit]) = 2 /\
  QIFOutput.skipped (state_after sample_accounts [rec_zero_credit; rec_zero_debit]) = 0.
Proof.
  split; [vm_compute; reflexivity|]. split; [vm_compute; discriminate|].
  repeat split; vm_compute; reflexivity.
Qed.

(** C8 as stated fails: [rec_c] has the hashed fields of [rec_a] but another
    kind, and the second add is accepted. *)
Lemma same_fingerprint_other_kind_accepted :
  hash_key rec_a = hash_key rec_c /\
  fst (iadd_all sample_accounts [rec_a; rec_c] QIFOutput.init) = inl tt /\
  QIFOutput.added (state_after sample_accounts [rec_a; rec_c]) = 2 /\
  QIFOutput.skipped (state_after sample_accounts [rec_a; rec_c]) = 0.
Proof. repeat split; vm_compute; reflexivity. Qed.

Lemma iadd_same_record_twice_witness :
  let st1 := state_after sample_accounts [rec_zero_credit] in
  iadd sample_accounts rec_zero_credit QIFOutput.init = (inl tt, st1) /\
  iadd sample_accounts rec_zero_credit st1 =
  (inl tt, QIFOutput.mk (QIFOutput.accounts st1) (QIFOutput.transaction_list st1)
                        (QIFOutput.added st1) (S (QIFOutput.skipped st1))) /\
  ~ same_fields rec_zero_debit rec_zero_credit /\
  py_in rec_zero_debit (QIFOutput.transaction_list st1) = false /\
  forall st2, iadd sample_accounts rec_zero_debit st1 = (inl tt, st2) ->
    QIFOutput.added st2 = S (QIFOutput.added st1) /\
    QIFOutput.skipped st2 = QIFOutput.skipped st1.
Proof.
  intros st1.
  assert (H : iadd sample_accounts rec_zero_credit QIFOutput.init = (inl tt, st1))
    by (vm_compute; reflexivity).
  assert (N : ~ same_fields rec_zero_debit rec_zero_credit).
  { rewrite <- same_entry_iff. vm_compute. discriminate. }
  destruct (iadd_same_record_twice sample_accounts _ _ rec_zero_credit rec_zero_debit H)
    as [_ P2].
  split; [exact H|]. split.
  - apply (proj1 (iadd_same_record_twice sample_accounts _ _ rec_zero_credit rec_zero_credit H)).
    apply same_entry_iff. apply same_entry_refl.
  - split; [exact N|]. exact (P2 N ltac:(vm_compute; reflexivity)).
Defined.

Lemma iadd_all_grouped_witness :
  let ts := [rec_transfer; rec_a; rec_transfer_compl; rec_b; rec_a] in
  let ts' := [rec_transfer; rec_a; rec_unregistered_source; rec_b] in
  (QIFOutput.accounts (state_after sample_accounts ts) =
     grouped sample_accounts (accept_seq [] ts) /\
   QIFOutput.added (state_after sample_accounts ts) = length (accept_seq [] ts) /\
   exit_output (state_after sample_accounts ts) =
     String.concat "" (map (fun g => String.concat "" (map (fun e => e ++ nl) (snd g)))%string
                           (grouped sample_accounts (accept_seq [] ts)))) /\
  (exists pre t post, ts' = pre ++ t :: post /\
     KeyError "NL99ABNA0000000099" = KeyError (source_iban t) /\
     QIFOutput.accounts (state_after sample_accounts ts') =
       grouped sample_accounts (accept_seq [] pre) ++ [(source_iban t, [])] /\
     QIFOutput.added (state_after sample_accounts ts') = length (accept_seq [] pre) /\
     exit_output (state_after sample_accounts ts') =
       String.concat "" (map (fun g => String.concat "" (map (fun e => e ++ nl) (snd g)))%string
                             (grouped sample_accounts (accept_seq [] pre)))).
Proof.
  intros ts ts'. split.
  - apply (proj1 (iadd_all_grouped sample_accounts ts (inl tt) _ ltac:(vm_compute; reflexivity))).
    reflexivity.
  - apply (proj2 (iadd_all_grouped sample_accounts ts' (inr (KeyError "NL99ABNA0000000099"))
                    _ ltac:(vm_compute; reflexivity))).
    reflexivity.
Defined.

(** C9 as stated fails when an add raises: the source account of the
    failing record is left in [out.accounts] with no header and no block,
    so not every group starts with a header. *)
Lemma unregistered_source_leaves_empty_group :
  iadd_all sample_accounts [rec_a; rec_unregistered_source] QIFOutput.init =
    (inr (KeyError "NL99ABNA0000000099"),
     state_after sample_accounts [rec_a; rec_unregistered_source]) /\
  al_lookup "NL99ABNA0000000099"
    (QIFOutput.accounts (state_after sample_accounts [rec_a; rec_unregistered_source]))
  = Some [].
Proof. split; vm_compute; reflexivity. Qed.

(** C2 as stated fails: after a transfer was accepted, an unrecognised
    narrative aborts the run, and the document written holds the headers
    and blocks accepted before it. *)
Lemma failed_run_output_not_empty :
  let r := main_run sample_accounts
             [("NL01ABNA0000000001"%string, sample_transfer);
              ("NL01ABNA0000000001"%string, sample_unknown)] in
  (exists err, fst (fst r) = inr err) /\
  String.prefix "!Account" (snd (fst r)) = true /\
  snd (fst r) <> EmptyString.
Proof.
  split; [eexists; vm_compute; reflexivity|].
  split; [vm_compute; reflexivity | vm_compute; discriminate].
Qed.

Lemma failed_run_writes_accepted_witness :
  main_run sample_accounts
    ([("NL01ABNA0000000001"%string, sample_transfer)] ++
     ("NL01ABNA0000000001"%string, sample_unknown) :: []) =
  (inr (ValueError ("Transaction type not supported for " ++ dq ++
                    AddtlNtryInf sample_unknown ++ dq)%string),
   exit_output (state_after_run sample_accounts
                  [("NL01ABNA0000000001"%string, sample_transfer)]),
   state_after_run sample_accounts [("NL01ABNA0000000001"%string, sample_transfer)]).
Proof.
  apply (proj2 (failed_run_writes_accepted sample_accounts
                  [("NL01ABNA0000000001"%string, sample_transfer)] []
                  "NL01ABNA0000000001" sample_unknown
                  (state_after_run sample_accounts [("NL01ABNA0000000001"%string, sample_transfer)])
                  ltac:(vm_compute; reflexivity))).
  vm_compute. reflexivity.
Defined.

Lemma find_sepa_field_run_rule_witness :
  let info := "/TRTP/SEPA/REMI/a/REMI/b/IBAN/x"%string in
  let info2 := "/TRTP/SEPA/REMI/a/REMI/b"%string in
  (is_match (rsearch SEPA_re (chars info)) = true /\
   markers (chars info) =
     [mkMarker "TRTP" 0 6] ++ [mkMarker "REMI" 10 16] ++
     mkMarker "REMI" 17 23 :: mkMarker "IBAN" 24 30 :: [] /\
   find_sepa_field info "REMI" = Some (str (py_slice (chars info) 23 24))) /\
  (markers (chars info2) = [mkMarker "TRTP" 0 6] ++ mkMarker "REMI" 10 16 :: [mkMarker "REMI" 17 23] /\
   find_sepa_field info2 "REMI" = None).
Proof.
  intros info info2.
  assert (Hs : is_match (rsearch SEPA_re (chars info)) = true) by (vm_compute; reflexivity).
  assert (Hm : markers (chars info) =
     [mkMarker "TRTP" 0 6] ++ [mkMarker "REMI" 10 16] ++
     mkMarker "REMI" 17 23 :: mkMarker "IBAN" 24 30 :: []) by (vm_compute; reflexivity).
  assert (Hm2 : markers (chars info2) =
     [mkMarker "TRTP" 0 6] ++ mkMarker "REMI" 10 16 :: [mkMarker "REMI" 17 23])
    by (vm_compute; reflexivity).
  split; [split; [exact Hs | split; [exact Hm|]] | split; [exact Hm2|]].
  - exact (proj1 find_sepa_field_run_rule info "REMI" _ _ _ _ _ Hs Hm
             ltac:(repeat constructor; vm_compute; discriminate)
             ltac:(repeat constructor) eq_refl ltac:(vm_compute; discriminate)).
  - exact (proj1 (proj2 find_sepa_field_run_rule) info2 "REMI" _ _ _ Hm2
             ltac:(repeat constructor; vm_compute; discriminate) eq_refl
             ltac:(repeat constructor)).
Defined.

(* ------------------------------------------------------------------ *)
(** ** Further properties of the module *)

Section Extras.

Variable accounts : gmap string string.

(** What [process_entry] always sets: the statement's IBAN as source, the
    entry's date and narrative, and a kind that is ["Bank"], or ["Cash"]
    only for a card narrative [BEA_re] finds with a subtype other than [B]. *)
Theorem process_entry_fields (iban : string) (elem : Ntry) (t : Trsx) :
  process_entry iban elem = inl t ->
  source_iban t = iban /\ date t = ValDt elem /\ transaction_desc t = AddtlNtryInf elem /\
  (type t = "Bank"%string \/
   (type t = "Cash"%string /\
    exists cs, rsearch BEA_re (chars (AddtlNtryInf elem)) = Some cs /\
               group cs "subtype" <> Some "B"%string)).
Proof.
  unfold process_entry, _get_regex, grammars. cbn [first_match].
  destruct (rsearch BEA_re (chars (AddtlNtryInf elem))) as [cs|] eqn:B.
  - cbn -[opt_eqb group]. intros H. inversion H; subst t. cbn -[opt_eqb group].
    split; [reflexivity | split; [reflexivity | split; [reflexivity|]]].
    destruct (opt_eqb (group cs "subtype") (Some "B")) eqn:O; [left; reflexivity|].
    right. split; [reflexivity|]. exists cs. split; [reflexivity|].
    intros E. rewrite E in O. simpl in O. discriminate.
  - destruct (rsearch SEPA_re (chars (AddtlNtryInf elem))) as [cs|];
      [cbn; intros H; inversion H; subst t; cbn; auto|].
    destruct (rsearch ABN_re (chars (AddtlNtryInf elem))) as [cs|];
      [cbn; intros H; inversion H; subst t; cbn; auto|].
    destruct (rsearch SPAREN_re (chars (AddtlNtryInf elem))) as [cs|];
      [cbn; intros H; inversion H; subst t; cbn; auto|].
    cbn. discriminate.
Qed.

(** Only a structured-transfer narrative gives a counter account: a record
    with one comes from a narrative [BEA_re] does not find and [SEPA_re]
    does, and the counter account is its [IBAN] field. *)
Theorem process_entry_counter_account (iban : string) (elem : Ntry) (t : Trsx) :
  process_entry iban elem = inl t -> dest_iban t <> None ->
  rsearch BEA_re (chars (AddtlNtryInf elem)) = None /\
  is_match (rsearch SEPA_re (chars (AddtlNtryInf elem))) = true /\
  dest_iban t = find_sepa_field (AddtlNtryInf elem) "IBAN".
Proof.
  unfold process_entry, _get_regex, grammars. cbn [first_match].
  destruct (rsearch BEA_re (chars (AddtlNtryInf elem))) as [cs|] eqn:B.
  - cbn -[opt_eqb group]. intros H. inversion H; subst t. cbn. congruence.
  - destruct (rsearch SEPA_re (chars (AddtlNtryInf elem))) as [cs|] eqn:S.
    + cbn -[find_sepa_field]. intros H _. inversion H; subst t. cbn -[find_sepa_field].
      auto.
    + destruct (rsearch ABN_re (chars (AddtlNtryInf elem))) as [cs|];
        [cbn; intros H; inversion H; subst t; cbn; congruence|].
      destruct (rsearch SPAREN_re (chars (AddtlNtryInf elem))) as [cs|];
        [cbn; intros H; inversion H; subst t; cbn; congruence|].
      cbn. discriminate.
Qed.

(** A tag with no delimiter in the narrative is never extracted. *)
Lemma find_sepa_field_no_marker (transaction_info field : string) :
  ~ In field (map mtag (markers (chars transaction_info))) ->
  find_sepa_field transaction_info field = None.
Proof.
  intros Hn. unfold find_sepa_field.
  destruct (is_match (rsearch SEPA_re (chars transaction_info))); [|reflexivity].
  induction (markers (chars transaction_info)) as [|m ms IH]; simpl in *; [reflexivity|].
  destruct (String.eqb (mtag m) field) eqn:E.
  - apply String.eqb_eq in E. exfalso. apply Hn. left. exact E.
  - apply IH. intros Hin. apply Hn. right. exact Hin.
Qed.

End Extras.

(** ** Dict lookups and growth of the groups *)

Lemma map_fst_al_update {V} (k : string) (f : V -> V) (l : list (string * V)) :
  map fst (al_update k f l) = map fst l.
Proof.
  unfold al_update. induction l as [|[k' v] l IH]; simpl; [reflexivity|].
  destruct (String.eqb k k'); simpl; rewrite IH; reflexivity.
Qed.

Lemma al_lookup_update {V} (k a : string) (f : V -> V) (l : list (string * V)) :
  al_lookup a (al_update k f l) =
  if String.eqb k a then option_map f (al_lookup a l) else al_lookup a l.
Proof.
  unfold al_lookup, al_update. induction l as [|[k' v] l IH]; simpl.
  - destruct (String.eqb k a); reflexivity.
  - destruct (String.eqb k k') eqn:E1; simpl; destruct (String.eqb k' a) eqn:E2.
    + apply String.eqb_eq in E1, E2. subst. rewrite String.eqb_refl. reflexivity.
    + exact IH.
    + apply String.eqb_eq in E2. subst k'. rewrite E1. reflexivity.
    + exact IH.
Qed.

Lemma al_lookup_app_l {V} (a : string) (l x : list (string * V)) (v : V) :
  al_lookup a l = Some v -> al_lookup a (l ++ x) = Some v.
Proof.
  unfold al_lookup. induction l as [|[k w] l IH]; simpl; [discriminate|].
  destruct (String.eqb k a); [tauto | exact IH].
Qed.

Lemma groups_grow_refl (l : list (string * list string)) : groups_grow l l.
Proof.
  split; [exists []; rewrite app_nil_r; reflexivity|].
  intros a v H. exists []. rewrite app_nil_r. exact H.
Qed.

Lemma groups_grow_trans (l1 l2 l3 : list (string * list string)) :
  groups_grow l1 l2 -> groups_grow l2 l3 -> groups_grow l1 l3.
Proof.
  intros [[e1 K1] L1] [[e2 K2] L2]. split.
  - exists (e1 ++ e2). rewrite K2, K1, app_assoc. reflexivity.
  - intros a v H. destruct (L1 a v H) as [x1 H1]. destruct (L2 a _ H1) as [x2 H2].
    exists (x1 ++ x2). rewrite app_assoc. exact H2.
Qed.

Lemma groups_grow_append (k : string) (x : list string) (l : list (string * list string)) :
  groups_grow l (al_update k (fun v => v ++ x) l).
Proof.
  split; [exists []; rewrite map_fst_al_update, app_nil_r; reflexivity|].
  intros a v H. rewrite al_lookup_update, H.
  destruct (String.eqb k a); [exists x | exists []; rewrite app_nil_r]; reflexivity.
Qed.

Lemma groups_grow_snoc (l x : list (string * list string)) : groups_grow l (l ++ x).
Proof.
  split; [exists (map fst x); rewrite map_app; reflexivity|].
  intros a v H. exists []. rewrite app_nil_r. exact (al_lookup_app_l _ _ _ _ H).
Qed.

Lemma NoDup_firsts (l : list string) : List.NoDup (firsts l).
Proof.
  induction l as [|x l IH]; simpl; constructor.
  - intros Hin. apply List.filter_In in Hin as [_ E]. rewrite String.eqb_refl in E. discriminate.
  - apply List.NoDup_filter. exact IH.
Qed.

Lemma In_firsts (a : string) (l : list string) : In a (firsts l) <-> In a l.
Proof.
  split; [apply firsts_In|]. intros H.
  assert (E : existsb (String.eqb a) (firsts l) = true).
  { rewrite existsb_firsts. apply existsb_exists. exists a. split; [exact H | apply String.eqb_refl]. }
  apply existsb_exists in E as [y [Hy Ey]]. apply String.eqb_eq in Ey. subst y. exact Hy.
Qed.

Lemma map_fst_grouped (accounts : gmap string string) (acc : list Trsx) :
  map fst (grouped accounts acc) = firsts (map source_iban acc).
Proof. unfold grouped. rewrite map_map. simpl. apply map_id. Qed.

(** [complementary] succeeded: the fields it swaps, negates and copies. *)
Lemma complementary_inl (accounts : gmap string string) (t c : Trsx) :
  complementary accounts t = inl c ->
  dest_iban t = Some (source_iban c) /\ dest_iban c = Some (source_iban t) /\
  type c = type t /\ date c = date t /\ amount c = float_neg (amount t) /\
  payee c = payee t /\ memo c = memo t.
Proof.
  unfold complementary. destruct (is_transfer_transaction accounts t); [|discriminate].
  destruct (dest_iban t) as [d|]; [|discriminate]. simpl. intros H. inversion H; subst c.
  simpl. repeat split.
Qed.

Section ExtrasAggregator.

Variable accounts : gmap string string.

Lemma iadd_succeeds (st : QIFOutput.t) (t : Trsx) :
  is_Some (accounts !! source_iban t) -> exists st', iadd accounts t st = (inl tt, st').
Proof.
  intros [n Hn]. unfold iadd. destruct (py_in t (QIFOutput.transaction_list st)); cbn [negb].
  - eexists. reflexivity.
  - unfold bind, _get_list, lift, modify.
    destruct (al_mem (source_iban t) (QIFOutput.accounts st)).
    + rewrite get_qif_tx_ok. eexists. reflexivity.
    + unfold _get_account at 1. rewrite Hn. rewrite get_qif_tx_ok. eexists. reflexivity.
Qed.

(** [out += t] raises exactly when [t] is new, its source account has no
    group yet and is not in the registry; the error is the [KeyError] of
    [_get_account], and the state keeps the empty group [_get_list] had
    already created for the account. *)
Theorem iadd_raises (st st' : QIFOutput.t) (t : Trsx) (e : exn) :
  iadd accounts t st = (inr e, st') <->
  py_in t (QIFOutput.transaction_list st) = false /\
  al_mem (source_iban t) (QIFOutput.accounts st) = false /\
  accounts !! source_iban t = None /\
  e = KeyError (source_iban t) /\
  st' = set_accounts (QIFOutput.accounts st ++ [(source_iban t, [])]) st.
Proof.
  unfold iadd. destruct (py_in t (QIFOutput.transaction_list st)); cbn [negb].
  - unfold modify. split; [discriminate | intros (F & _); discriminate].
  - unfold bind, _get_list, lift, modify.
    destruct (al_mem (source_iban t) (QIFOutput.accounts st)).
    + rewrite get_qif_tx_ok. split; [discriminate | intros (_ & F & _); discriminate].
    + unfold _get_account at 1. destruct (accounts !! source_iban t) eqn:L.
      * rewrite get_qif_tx_ok. split; [discriminate | intros (_ & _ & F & _); discriminate].
      * split.
        -- intros H. inversion H; subst. auto.
        -- intros (_ & _ & _ & -> & ->). reflexivity.
Qed.

Lemma iadd_grows (st st' : QIFOutput.t) (t : Trsx) (r : unit + exn) :
  iadd accounts t st = (r, st') ->
  groups_grow (QIFOutput.accounts st) (QIFOutput.accounts st') /\
  exists x, QIFOutput.transaction_list st' = x ++ QIFOutput.transaction_list st.
Proof.
  unfold iadd. destruct (py_in t (QIFOutput.transaction_list st)); cbn [negb].
  - unfold modify. intros H. inversion H; subst. simpl.
    split; [apply groups_grow_refl | exists []; reflexivity].
  - unfold bind, _get_list, lift, modify.
    destruct (al_mem (source_iban t) (QIFOutput.accounts st)).
    + rewrite get_qif_tx_ok. intros H. inversion H; subst. simpl.
      split; [apply groups_grow_append | exists [t]; reflexivity].
    + destruct (_get_account accounts (source_iban t)).
      * rewrite get_qif_tx_ok. intros H. inversion H; subst. simpl.
        split; [|exists [t]; reflexivity].
        eapply groups_grow_trans; [apply groups_grow_snoc|].
        eapply groups_grow_trans; apply groups_grow_append.
      * intros H. inversion H; subst. simpl.
        split; [apply groups_grow_snoc | exists []; reflexivity].
Qed.

(** The aggregator only grows: an add, also one that raises, keeps every
    account group in its place and every block already in a group, and
    forgets no record of the set. *)
Theorem iadd_append_only (st st' : QIFOutput.t) (t : Trsx) (r : unit + exn) :
  iadd accounts t st = (r, st') ->
  groups_grow (QIFOutput.accounts st) (QIFOutput.accounts st') /\
  exists x, QIFOutput.transaction_list st' = x ++ QIFOutput.transaction_list st.
Proof. apply iadd_grows. Qed.

Lemma iadd_all_counts_aux (ts : list Trsx) (st st' : QIFOutput.t) :
  iadd_all accounts ts st = (inl tt, st') ->
  QIFOutput.added st' + QIFOutput.skipped st' =
  QIFOutput.added st + QIFOutput.skipped st + length ts.
Proof.
  revert st. induction ts as [|t ts IH]; intros st H; simpl in H.
  - inversion H; subst. simpl. lia.
  - unfold bind in H. destruct (iadd accounts t st) as [[[]|e] st1] eqn:E; [|discriminate].
    pose proof (iadd_outcome accounts st st1 t E) as O. rewrite (IH st1 H). simpl.
    destruct (py_in t (QIFOutput.transaction_list st)).
    + subst st1. simpl. lia.
    + destruct O as (_ & -> & ->). lia.
Qed.

(** Every record of a sequence of adds that raises nothing is counted once,
    as inserted or as duplicated. *)
Theorem iadd_all_counts (ts : list Trsx) (st : QIFOutput.t) :
  iadd_all accounts ts QIFOutput.init = (inl tt, st) ->
  QIFOutput.added st + QIFOutput.skipped st = length ts.
Proof. intros H. rewrite (iadd_all_counts_aux ts _ st H). reflexivity. Qed.

(** The account count the main block prints, [len(out.accounts)]: after
    adds that raise nothing, the groups have distinct accounts, and these
    are exactly the source accounts of the accepted records. *)
Theorem iadd_all_accounts (ts : list Trsx) (st : QIFOutput.t) :
  iadd_all accounts ts QIFOutput.init = (inl tt, st) ->
  List.NoDup (map fst (QIFOutput.accounts st)) /\
  forall a, In a (map fst (QIFOutput.accounts st)) <->
            exists t, In t (accept_seq [] ts) /\ source_iban t = a.
Proof.
  intros H.
  destruct (iadd_all_accepts accounts ts [] QIFOutput.init st eq_refl eq_refl eq_refl H)
    as (Ha & _ & _).
  simpl in Ha. rewrite Ha, map_fst_grouped. split; [apply NoDup_firsts|].
  intros a. rewrite In_firsts, in_map_iff. split; intros [t [H1 H2]]; exists t; auto.
Qed.

Lemma process_entry_source (iban : string) (elem : Ntry) (t : Trsx) :
  process_entry iban elem = inl t -> source_iban t = iban.
Proof.
  unfold process_entry. destruct (_get_regex (AddtlNtryInf elem)) as [[ty m]|]; [|discriminate].
  repeat match goal with |- context [if ?b then _ else _] => destruct b end;
    intros H; inversion H; reflexivity.
Qed.

(** Double entry: once the entry of one side of a transfer between two
    registered accounts has been processed (the record and its complement
    are in the set), the entry of the other side, from the other account's
    statement, adds nothing: its record and its complement are both counted
    as duplicates, and the groups are left as they were. *)
Theorem mirrored_transfer_skipped (st st1 : QIFOutput.t) (a b : string) (e1 e2 : Ntry)
    (t c t' : Trsx) :
  is_Some (accounts !! a) ->
  process_entry a e1 = inl t -> complementary accounts t = inl c ->
  process_one accounts a e1 st = (inl tt, st1) ->
  process_entry b e2 = inl t' -> same_fields t' c ->
  process_one accounts b e2 st1 =
  (inl tt, QIFOutput.mk (QIFOutput.accounts st1) (QIFOutput.transaction_list st1)
                        (QIFOutput.added st1) (S (S (QIFOutput.skipped st1)))).
Proof.
  intros [n Hn] He1 Hc H1 He2 Eq.
  assert (Ht : is_transfer_transaction accounts t = true).
  { revert Hc. unfold complementary. destruct (is_transfer_transaction accounts t); [reflexivity|discriminate]. }
  unfold process_one, bind, lift in H1. rewrite He1, Ht, Hc in H1.
  destruct (iadd accounts t st) as [[[]|err] smid] eqn:I1; [|discriminate].
  assert (Pt : py_in t (QIFOutput.transaction_list st1) = true).
  { rewrite (py_in_after_iadd _ _ _ _ _ H1), (py_in_after_iadd _ _ _ _ _ I1), same_entry_refl.
    apply orb_true_r. }
  assert (Pc : py_in c (QIFOutput.transaction_list st1) = true).
  { rewrite (py_in_after_iadd _ _ _ _ _ H1), same_entry_refl. reflexivity. }
  pose proof (process_entry_source _ _ _ He1) as Sa.
  destruct (complementary_inl accounts t c Hc) as (Dt & Dc & Ty & Da & Am & Pa & Me).
  pose proof Eq as (S1 & S2 & S3 & S4 & S5 & S6 & S7).
  assert (Ht' : is_transfer_transaction accounts t' = true).
  { unfold is_transfer_transaction. rewrite S2, Dc, Sa, Hn. reflexivity. }
  assert (Hd' : dest_iban t' = Some (source_iban t)) by congruence.
  unfold process_one, bind, lift. rewrite He2.
  apply same_entry_iff in Eq.
  rewrite (iadd_when_present _ _ _ (py_in_trans _ _ _ Eq Pc)). cbn -[iadd].
  rewrite Ht', (complementary_transfer _ _ _ Hd' Ht'). cbn -[iadd].
  rewrite iadd_when_present; [reflexivity|]. cbn.
  apply (py_in_trans _ _ t); [|exact Pt].
  apply same_entry_iff. repeat split; cbn; try congruence.
  rewrite S5, Am. apply float_neg_involutive.
Qed.

(** Rendering a record never raises: the ledger lookup [_get_account]
    runs only for a transfer, whose counter account is registered. *)
Theorem get_qif_tx_never_raises (t : Trsx) : exists block, get_qif_tx accounts t = inl block.
Proof. exists (block_of accounts t). apply get_qif_tx_ok. Qed.

End ExtrasAggregator.

(** A record with a zero amount and the same record with the zero of the
    other sign ([0.0] and [-0.0], as a credit and a debit of [0.00] give)
    are [__eq__], but their hashes differ, so the set keeps them apart: a
    set holding one does not contain the other. *)
Theorem zero_amount_sign_splits (t : Trsx) :
  fmag (amount t) = 0%N ->
  let t' := mkTrsx (source_iban t) (dest_iban t) (type t) (date t) (float_neg (amount t))
                   (payee t) (memo t) (transaction_desc t) in
  trsx_eqb t' t = true /\ hash_key t' <> hash_key t /\
  forall s, py_in t' (t :: s) = py_in t' s.
Proof.
  intros Z t'.
  assert (D : same_entry t' t = false).
  { apply not_true_iff_false. rewrite same_entry_iff. intros (_ & _ & _ & _ & A & _).
    destruct t as [? ? ? ? [b m] ? ? ?]. simpl in A. unfold float_neg in A. simpl in A.
    inversion A as [A']. destruct b; discriminate A'. }
  split; [|split].
  - apply trsx_eqb_iff. repeat split. apply float_eqb_iff. simpl. auto.
  - intros Hh. assert (E : same_entry t' t = true).
    { unfold same_entry. rewrite Hh, String.eqb_refl. simpl.
      apply trsx_eqb_iff. repeat split. apply float_eqb_iff. simpl. auto. }
    congruence.
  - intros s'. cbn [py_in existsb]. rewrite D. reflexivity.
Qed.

(** ** [_load_accounts] *)

Lemma interp_loop_error (o s r : string) (m : string -> option string)
    (nested : list ascii -> list ascii + exn) :
  (forall l e', nested l = inr e' -> is_interpolation_error e') ->
  forall mode rest e, interp_loop o s r m nested mode rest = inr e -> is_interpolation_error e.
Proof.
  intros Hn mode rest. remember (length rest) as n eqn:Hlen.
  assert (Hle : length rest <= n) by lia. clear Hlen. revert mode rest Hle.
  induction n as [|n IH]; intros mode rest Hle e H.
  - destruct rest; [|simpl in Hle; lia].
    destruct mode; simpl in H; [discriminate | inversion H; exact I | inversion H; exact I].
  - destruct rest as [|c rest];
      [destruct mode; simpl in H; [discriminate | inversion H; exact I | inversion H; exact I]|].
    simpl in Hle. destruct mode as [|w|w nm]; simpl in H; unfold cons_ok, app_ok in H;
    repeat match type of H with
    | inl _ = inr _ => discriminate
    | inr _ = inr _ => inversion H; subst; first [exact I | eauto]
    | context [if ?b then _ else _] => destruct b
    | context [match ?x with _ => _ end] => destruct x eqn:?
    end;
    try (eapply IH; [|eassumption]; simpl; lia);
    try (eapply IH; [|eassumption]; simpl in *; lia).
Qed.

(** Interpolation only raises [InterpolationError]s. *)
Lemma interpolate_some_error (o s r : string) (m : string -> option string) (L : nat) :
  forall rest e, interpolate_some o s r m L rest = inr e -> is_interpolation_error e.
Proof.
  induction L as [|L IHL]; intros rest e H; simpl in H.
  - inversion H. exact I.
  - exact (interp_loop_error o s r m _ IHL _ _ _ H).
Qed.

(** Text without ['%'] is left as it is. *)
Lemma interp_loop_no_percent (o s r : string) (m : string -> option string)
    (nested : list ascii -> list ascii + exn) (rest : list ascii) :
  has_percent rest = false -> interp_loop o s r m nested INorm rest = inl rest.
Proof.
  induction rest as [|c rest IH]; intros H; [reflexivity|].
  simpl in H. apply orb_false_iff in H as [H1 H2]. simpl. rewrite H1, IH by exact H2.
  reflexivity.
Qed.

Lemma interpolate_some_S (o s r : string) (m : string -> option string) (L : nat)
    (rest : list ascii) :
  interpolate_some o s r m (S L) rest = interp_loop o s r m (interpolate_some o s r m L) INorm rest.
Proof. reflexivity. Qed.

Lemma section_value_error (cp : ConfigParser) (s : string) (opts : list (string * string))
    (k : string) (e : exn) :
  section_value cp s opts k = Some (inr e) -> is_interpolation_error e.
Proof.
  unfold section_value, before_get. destruct (section_get cp opts k) as [v|]; [|discriminate].
  destruct (interpolate_some _ _ _ _ _ _) as [l|e'] eqn:E; intros H; inversion H; subst.
  exact (interpolate_some_error _ _ _ _ _ _ _ E).
Qed.

Lemma al_lookup_In {V} (k : string) (l : list (string * V)) (v : V) :
  al_lookup k l = Some v -> In (k, v) l.
Proof.
  unfold al_lookup. destruct (find _ l) as [[k' v']|] eqn:F; [|discriminate].
  intros H. inversion H; subst. apply find_some in F as [Hin E]. simpl in E.
  apply String.eqb_eq in E. subst. exact Hin.
Qed.

Lemma section_value_plain (cp : ConfigParser) (s : string) (opts : list (string * string))
    (k : string) :
  Forall value_plain (defaults cp) -> Forall value_plain opts ->
  section_value cp s opts k = option_map inl (section_get cp opts k).
Proof.
  intros Hd Ho. unfold section_value. destruct (section_get cp opts k) as [v|] eqn:G; [|reflexivity].
  assert (P : has_percent (chars v) = false).
  { unfold section_get in G. rewrite List.Forall_forall in Hd, Ho.
    destruct (al_lookup k opts) eqn:A.
    - inversion G; subst. exact (Ho _ (al_lookup_In _ _ _ A)).
    - exact (Hd _ (al_lookup_In _ _ _ G)). }
  unfold before_get. rewrite interpolate_some_S, interp_loop_no_percent by exact P.
  unfold str, chars. rewrite string_of_list_ascii_of_string. reflexivity.
Qed.

Lemma load_sections_error_kind (cp : ConfigParser) (m0 : gmap string string)
    (secs : list (string * list (string * string))) (e : exn) :
  load_sections cp m0 secs = inr e -> e = KeyError "iban"%string \/ is_interpolation_error e.
Proof.
  revert m0. induction secs as [|[s opts] secs IH]; intros m0; simpl; [discriminate|].
  destruct (section_value cp s opts "iban") as [[i|e1]|] eqn:G.
  - destruct (section_value cp s opts "name") as [[n|e2]|] eqn:G2.
    + apply IH.
    + intros H. inversion H; subst. right. exact (section_value_error _ _ _ _ _ G2).
    + apply IH.
  - intros H. inversion H; subst. right. exact (section_value_error _ _ _ _ _ G).
  - intros H. inversion H. left. reflexivity.
Qed.

Lemma load_sections_error (cp : ConfigParser) (m0 : gmap string string)
    (secs : list (string * list (string * string))) (e : exn) :
  Forall value_plain (defaults cp) -> Forall (fun so => Forall value_plain (snd so)) secs ->
  load_sections cp m0 secs = inr e <-> e = KeyError "iban"%string /\ Exists (lacks_iban cp) secs.
Proof.
  intros Hd. revert m0. induction secs as [|[s opts] secs IH]; intros m0 Hs; simpl.
  - split; [discriminate | intros [_ H]; inversion H].
  - inversion Hs as [|? ? Ho Hs']; subst. simpl in Ho.
    rewrite !(section_value_plain cp s opts _ Hd Ho).
    destruct (section_get cp opts "iban") as [i|] eqn:G; simpl.
    + assert (IH' := IH (<[i := match section_get cp opts "name" with
                                 | Some n => n | None => i end]> m0) Hs').
      destruct (section_get cp opts "name"); simpl; rewrite IH'; split.
      * intros [-> H]. split; [reflexivity | right; exact H].
      * intros [-> H]. split; [reflexivity|]. inversion H as [? ? H1|]; subst; [|assumption].
        unfold lacks_iban in H1. simpl in H1. congruence.
      * intros [-> H]. split; [reflexivity | right; exact H].
      * intros [-> H]. split; [reflexivity|]. inversion H as [? ? H1|]; subst; [|assumption].
        unfold lacks_iban in H1. simpl in H1. congruence.
    + split.
      * intros H. inversion H; subst. split; [reflexivity | left; exact G].
      * intros [-> _]. reflexivity.
Qed.

Lemma load_sections_lookup (cp : ConfigParser) (m0 m : gmap string string)
    (secs : list (string * list (string * string))) :
  load_sections cp m0 secs = inl m ->
  forall k v, m !! k = Some v <->
    (exists pre s opts post, secs = pre ++ (s, opts) :: post /\
       section_value cp s opts "iban"%string = Some (inl k) /\ section_name cp s opts k = v /\
       Forall (fun so => ~ registers cp k so) post) \/
    (m0 !! k = Some v /\ Forall (fun so => ~ registers cp k so) secs).
Proof.
  revert m0. induction secs as [|[s opts] secs IH]; intros m0 H k v; simpl in H.
  - inversion H; subst m. split; [intros L; right; split; [exact L | constructor]|].
    intros [(pre & s & opts & post & E & _)|[L _]]; [|exact L].
    destruct pre; discriminate.
  - destruct (section_value cp s opts "iban") as [[i|e1]|] eqn:G; [|discriminate|discriminate].
    assert (H' : load_sections cp (<[i := section_name cp s opts i]> m0) secs = inl m).
    { unfold section_name.
      destruct (section_value cp s opts "name") as [[n|e2]|]; [exact H | discriminate | exact H]. }
    rewrite (IH _ H' k v).
    destruct (String.eqb i k) eqn:Ik.
    + apply String.eqb_eq in Ik. subst i.
      rewrite lookup_insert_eq. split.
      * intros [(pre & s' & o' & post & E & R)|[L F]].
        -- left. exists ((s, opts) :: pre), s', o', post. rewrite E. split; [reflexivity | exact R].
        -- left. exists [], s, opts, secs. inversion L. split; [reflexivity|]. auto.
      * intros [(pre & s' & o' & post & E & G' & N & F)|[_ F]].
        -- destruct pre as [|x pre].
           ++ inversion E; subst. right. split; [reflexivity | exact F].
           ++ inversion E; subst. left. exists pre, s', o', post. auto.
        -- inversion F as [|? ? N]; subst. exfalso. apply N. exact G.
    + apply String.eqb_neq in Ik. rewrite lookup_insert_ne by congruence. split.
      * intros [(pre & s' & o' & post & E & R)|[L F]].
        -- left. exists ((s, opts) :: pre), s', o', post. rewrite E. split; [reflexivity | exact R].
        -- right. split; [exact L|]. constructor; [|exact F].
           unfold registers. simpl. congruence.
      * intros [(pre & s' & o' & post & E & G' & N & F)|[L F]].
        -- destruct pre as [|x pre].
           ++ inversion E; subst. congruence.
           ++ inversion E; subst. left. exists pre, s', o', post. auto.
        -- inversion F; subst. right. auto.
Qed.

(** [_load_accounts] raises only [KeyError('iban')], for a section with no
    [iban] key (neither its own nor one inherited from [DEFAULT]), or an
    [InterpolationError] of [BasicInterpolation] when a value read through
    [account_conf[...]] has a bad ['%'] (e.g. [name = 100%]) or a missing
    or too deep reference. When no value contains ['%'], it raises exactly
    when some section has no [iban] key, and the error is [KeyError('iban')]. *)
Theorem load_accounts_error (cp : ConfigParser) (e : exn) :
  (_load_accounts cp = inr e -> e = KeyError "iban"%string \/ is_interpolation_error e) /\
  (no_percent cp ->
     _load_accounts cp = inr e <->
     e = KeyError "iban"%string /\ Exists (lacks_iban cp) (sections cp)).
Proof.
  split.
  - apply load_sections_error_kind.
  - intros [Hd Hs]. apply load_sections_error; assumption.
Qed.

(** The registry [_load_accounts] builds: an IBAN is registered exactly when
    some section gives it as [iban] (read through interpolation), and its
    name is the one of the last such section: its [name] option, or the
    IBAN itself when it has none. *)
Theorem load_accounts_last_wins (cp : ConfigParser) (m : gmap string string) :
  _load_accounts cp = inl m ->
  forall k v, m !! k = Some v <->
    exists pre s opts post, sections cp = pre ++ (s, opts) :: post /\
      section_value cp s opts "iban"%string = Some (inl k) /\ section_name cp s opts k = v /\
      Forall (fun so => ~ registers cp k so) post.
Proof.
  intros H k v. rewrite (load_sections_lookup cp ∅ m (sections cp) H k v).
  rewrite lookup_empty. split; [intros [A|[D _]]; [exact A | discriminate] | intros A; left; exact A].
Qed.

(** ** Where a SEPA field's value lies in the narrative *)

Lemma is_prefix_app (p s : list ascii) : is_prefix p s = true -> exists q, s = p ++ q.
Proof.
  revert s. induction p as [|c p IH]; intros s H; [exists s; reflexivity|].
  destruct s as [|d s]; simpl in H; [discriminate|].
  apply andb_true_iff in H as [E H]. apply Ascii.eqb_eq in E. subst d.
  destruct (IH s H) as [q ->]. exists q. reflexivity.
Qed.

Lemma length_delim (t : string) : length (delim t) = String.length t + 2.
Proof.
  unfold delim, chars. change ("/" ++ t ++ "/")%string with (String "/" (t ++ "/"))%string.
  cbn [list_ascii_of_string length String.length].
  induction t as [|c t IH]; [reflexivity|]. simpl. simpl in IH. lia.
Qed.

Lemma marker_at_tag (s : list ascii) (t : string) :
  marker_at s = Some t -> In t sepa_tags /\ is_prefix (delim t) s = true.
Proof. unfold marker_at. intros H. apply find_some in H. exact H. Qed.

Lemma scan_pos (s : list ascii) (i skip : nat) (m : marker) :
  In m (scan s i skip) ->
  i + skip <= mstart m /\ In (mtag m) sepa_tags /\
  is_prefix (delim (mtag m)) (skipn (mstart m - i) s) = true /\
  mend m = mstart m + String.length (mtag m) + 2.
Proof.
  revert i skip. induction s as [|c s IH]; intros i skip Hin; simpl in Hin; [contradiction|].
  destruct skip as [|k].
  - destruct (marker_at (c :: s)) as [t|] eqn:Mt.
    + destruct Hin as [<- | Hin].
      * destruct (marker_at_tag _ _ Mt) as [T P]. simpl.
        replace (i - i) with 0 by lia. simpl. repeat split; auto; lia.
      * destruct (IH _ _ Hin) as (H1 & H2 & H3 & H4).
        replace (mstart m - i) with (S (mstart m - S i)) by lia. simpl.
        repeat split; auto; lia.
    + destruct (IH _ _ Hin) as (H1 & H2 & H3 & H4).
      replace (mstart m - i) with (S (mstart m - S i)) by lia. simpl.
      repeat split; auto; lia.
  - destruct (IH _ _ Hin) as (H1 & H2 & H3 & H4).
    replace (mstart m - i) with (S (mstart m - S i)) by lia. simpl.
    repeat split; auto; lia.
Qed.

Lemma scan_consecutive (s : list ascii) (i skip : nat) (pre post : list marker) (m1 m2 : marker) :
  scan s i skip = pre ++ m1 :: m2 :: post -> mend m1 <= mstart m2.
Proof.
  revert i skip pre. induction s as [|c s IH]; intros i skip pre H; simpl in H.
  - destruct pre; discriminate.
  - destruct skip as [|k]; [|exact (IH _ _ _ H)].
    destruct (marker_at (c :: s)) as [t|]; [|exact (IH _ _ _ H)].
    destruct pre as [|x pre]; simpl in H; inversion H as [[E1 E2]].
    + subst m1. assert (Hin : In m2 (scan s (S i) (String.length t + 2 - 1))) by (rewrite E2; left; reflexivity).
      destruct (scan_pos _ _ _ _ Hin) as (H1 & _). simpl. lia.
    + exact (IH _ _ _ E2).
Qed.

Lemma sepa_loop_started_split (info : list ascii) (field : string) (m0 : marker)
    (ms : list marker) (v : string) :
  mtag m0 = field -> 0 < mend m0 -> (forall m, In m ms -> 0 < mend m) ->
  sepa_loop info field (Some (mend m0)) ms = Some v ->
  exists pre m1 m2 post, m0 :: ms = pre ++ m1 :: m2 :: post /\
    mtag m1 = field /\ mtag m2 <> field /\ v = str (py_slice info (mend m1) (mstart m2)).
Proof.
  revert m0. induction ms as [|m ms IH]; intros m0 T0 P0 Hpos H; simpl in H; [discriminate|].
  destruct (String.eqb (mtag m) field) eqn:E.
  - apply String.eqb_eq in E.
    destruct (IH m E (Hpos m (or_introl eq_refl)) (fun x Hx => Hpos x (or_intror Hx)) H)
      as (pre & m1 & m2 & post & Eq & R).
    exists (m0 :: pre), m1, m2, post. rewrite Eq. split; [reflexivity | exact R].
  - unfold truthy in H. replace (mend m0 =? 0) with false in H by (symmetry; apply Nat.eqb_neq; lia).
    simpl in H. inversion H. exists [], m0, m, ms. apply String.eqb_neq in E. auto.
Qed.

Lemma sepa_loop_split (info : list ascii) (field : string) (ms : list marker) (v : string) :
  (forall m, In m ms -> 0 < mend m) ->
  sepa_loop info field None ms = Some v ->
  exists pre m1 m2 post, ms = pre ++ m1 :: m2 :: post /\
    mtag m1 = field /\ mtag m2 <> field /\ v = str (py_slice info (mend m1) (mstart m2)).
Proof.
  induction ms as [|m ms IH]; intros Hpos H; simpl in H; [discriminate|].
  destruct (String.eqb (mtag m) field) eqn:E.
  - apply String.eqb_eq in E.
    exact (sepa_loop_started_split info field m ms v E (Hpos m (or_introl eq_refl))
             (fun x Hx => Hpos x (or_intror Hx)) H).
  - simpl in H. destruct (IH (fun x Hx => Hpos x (or_intror Hx)) H)
      as (pre & m1 & m2 & post & Eq & R).
    exists (m :: pre), m1, m2, post. rewrite Eq. split; [reflexivity | exact R].
Qed.

Lemma scan_tags (s : list ascii) (i skip : nat) (t : string) :
  In t (map mtag (scan s i skip)) -> In t sepa_tags.
Proof.
  intros Hin. apply in_map_iff in Hin as [m [<- Hm]]. exact (proj1 (proj2 (scan_pos _ _ _ _ Hm))).
Qed.

(** Asking [find_sepa_field] for a tag outside the alternation
    [TRTP|CSID|NAME|MARF|REMI|IBAN|BIC|EREF] of [SEPA_markers_re] always
    gives [None]. *)
Theorem find_sepa_field_unknown_tag (transaction_info field : string) :
  ~ In field sepa_tags -> find_sepa_field transaction_info field = None.
Proof.
  intros Hn. apply find_sepa_field_no_marker. intros Hin. apply Hn. exact (scan_tags _ _ _ _ Hin).
Qed.

(** A value [find_sepa_field] extracts is the text between a delimiter
    [/field/] and the delimiter [/t/] of another tag that follows it
    directly in the narrative. *)
Theorem find_sepa_field_between_delims (transaction_info field v : string) :
  find_sepa_field transaction_info field = Some v ->
  exists p t q, chars transaction_info = p ++ delim field ++ chars v ++ delim t ++ q /\
                t <> field /\ In t sepa_tags.
Proof.
  unfold find_sepa_field. set (l := chars transaction_info).
  destruct (is_match (rsearch SEPA_re l)); [|discriminate]. intros H.
  destruct (sepa_loop_split l field (markers l) v (fun m Hm => scan_mend_pos _ _ _ _ Hm) H)
    as (pre & m1 & m2 & post & Eq & T1 & T2 & ->).
  assert (C := scan_consecutive _ _ _ _ _ _ _ Eq).
  assert (In1 : In m1 (markers l)) by (rewrite Eq; apply in_or_app; right; left; reflexivity).
  assert (In2 : In m2 (markers l)) by (rewrite Eq; apply in_or_app; right; right; left; reflexivity).
  destruct (scan_pos _ _ _ _ In1) as (_ & _ & P1 & E1).
  destruct (scan_pos _ _ _ _ In2) as (_ & G2 & P2 & _).
  rewrite Nat.sub_0_r in P1, P2. rewrite T1 in P1, E1.
  destruct (is_prefix_app _ _ P1) as [q1 Q1]. destruct (is_prefix_app _ _ P2) as [q2 Q2].
  exists (firstn (mstart m1) l), (mtag m2), q2. split; [|split; [exact T2 | exact G2]].
  unfold str, py_slice. rewrite list_ascii_of_string_of_list_ascii.
  assert (R : skipn (mend m1) l = q1).
  { rewrite E1. replace (mstart m1 + String.length field + 2) with (length (delim field) + mstart m1)
      by (rewrite length_delim; lia).
    rewrite <- skipn_skipn, Q1, skipn_app, Nat.sub_diag, skipn_all. reflexivity. }
  assert (S2 : skipn (mstart m2 - mend m1) (skipn (mend m1) l) = delim (mtag m2) ++ q2).
  { rewrite skipn_skipn. replace (mstart m2 - mend m1 + mend m1) with (mstart m2) by lia. exact Q2. }
  rewrite <- (firstn_skipn (mstart m1) l) at 1. f_equal. rewrite Q1. f_equal.
  rewrite <- R, <- S2. symmetry. apply firstn_skipn.
Qed.

(** ** Witnesses of the properties above *)

Lemma process_entry_fields_witness :
  process_entry "NL01ABNA0000000001" sample_card = inl sample_card_record /\
  (source_iban sample_card_record = "NL01ABNA0000000001" /\
   date sample_card_record = ValDt sample_card /\
   transaction_desc sample_card_record = AddtlNtryInf sample_card /\
   (type sample_card_record = "Bank" \/
    (type sample_card_record = "Cash" /\
     exists cs, rsearch BEA_re (chars (AddtlNtryInf sample_card)) = Some cs /\
                group cs "subtype" <> Some "B"%string)))%string.
Proof.
  assert (H : process_entry "NL01ABNA0000000001" sample_card = inl sample_card_record)
    by (vm_compute; reflexivity).
  split; [exact H | exact (process_entry_fields _ _ _ H)].
Defined.

Lemma process_entry_counter_account_witness :
  let t := ok_or rec_a (process_entry "NL01ABNA0000000001" sample_transfer) in
  process_entry "NL01ABNA0000000001" sample_transfer = inl t /\ dest_iban t <> None /\
  (rsearch BEA_re (chars (AddtlNtryInf sample_transfer)) = None /\
   is_match (rsearch SEPA_re (chars (AddtlNtryInf sample_transfer))) = true /\
   dest_iban t = find_sepa_field (AddtlNtryInf sample_transfer) "IBAN"%string).
Proof.
  intros t.
  assert (H1 : process_entry "NL01ABNA0000000001" sample_transfer = inl t) by (vm_compute; reflexivity).
  assert (H2 : dest_iban t <> None) by (vm_compute; discriminate).
  split; [exact H1 | split; [exact H2 | exact (process_entry_counter_account _ _ _ H1 H2)]].
Defined.

Lemma iadd_append_only_witness :
  let st0 := state_after sample_accounts [rec_transfer] in
  let res := iadd sample_accounts rec_a st0 in
  iadd sample_accounts rec_a st0 = (fst res, snd res) /\
  (groups_grow (QIFOutput.accounts st0) (QIFOutput.accounts (snd res)) /\
   exists x, QIFOutput.transaction_list (snd res) = x ++ QIFOutput.transaction_list st0).
Proof.
  intros st0 res. assert (H : iadd sample_accounts rec_a st0 = (fst res, snd res)) by (vm_compute; reflexivity).
  split; [exact H | exact (iadd_append_only sample_accounts _ _ _ _ H)].
Defined.

Lemma iadd_all_counts_witness :
  let ts := [rec_transfer; rec_a; rec_transfer_compl; rec_b; rec_a] in
  iadd_all sample_accounts ts QIFOutput.init = (inl tt, state_after sample_accounts ts) /\
  QIFOutput.added (state_after sample_accounts ts) + QIFOutput.skipped (state_after sample_accounts ts)
    = length ts.
Proof.
  intros ts. assert (H : iadd_all sample_accounts ts QIFOutput.init = (inl tt, state_after sample_accounts ts))
    by (vm_compute; reflexivity).
  split; [exact H | exact (iadd_all_counts sample_accounts _ _ H)].
Defined.

Lemma iadd_all_accounts_witness :
  let ts := [rec_transfer; rec_a; rec_transfer_compl; rec_b; rec_a] in
  iadd_all sample_accounts ts QIFOutput.init = (inl tt, state_after sample_accounts ts) /\
  (List.NoDup (map fst (QIFOutput.accounts (state_after sample_accounts ts))) /\
   forall a, In a (map fst (QIFOutput.accounts (state_after sample_accounts ts))) <->
             exists t, In t (accept_seq [] ts) /\ source_iban t = a).
Proof.
  intros ts. assert (H : iadd_all sample_accounts ts QIFOutput.init = (inl tt, state_after sample_accounts ts))
    by (vm_compute; reflexivity).
  split; [exact H | exact (iadd_all_accounts sample_accounts _ _ H)].
Defined.

Lemma mirrored_transfer_skipped_witness :
  let t := ok_or rec_a (process_entry "NL01ABNA0000000001" sample_transfer) in
  let c := ok_or t (complementary sample_accounts t) in
  let t' := ok_or rec_a (process_entry "NL02ABNA0000000002" sample_transfer_mirror) in
  let st1 := snd (process_one sample_accounts "NL01ABNA0000000001" sample_transfer QIFOutput.init) in
  same_fields t' c /\
  process_one sample_accounts "NL02ABNA0000000002" sample_transfer_mirror st1 =
  (inl tt, QIFOutput.mk (QIFOutput.accounts st1) (QIFOutput.transaction_list st1)
                        (QIFOutput.added st1) (S (S (QIFOutput.skipped st1)))).
Proof.
  intros t c t' st1. assert (E : same_fields t' c) by (repeat split; vm_compute; reflexivity).
  split; [exact E|].
  apply (mirrored_transfer_skipped sample_accounts QIFOutput.init st1
           "NL01ABNA0000000001" "NL02ABNA0000000002" sample_transfer sample_transfer_mirror t c t');
    [vm_compute; eexists; reflexivity | vm_compute; reflexivity | vm_compute; reflexivity
    | vm_compute; reflexivity | vm_compute; reflexivity | exact E].
Defined.

Lemma zero_amount_sign_splits_witness :
  fmag (amount rec_zero_credit) = 0%N /\
  trsx_eqb rec_zero_debit rec_zero_credit = true /\ hash_key rec_zero_debit <> hash_key rec_zero_credit /\
  forall s, py_in rec_zero_debit (rec_zero_credit :: s) = py_in rec_zero_debit s.
Proof.
  split; [reflexivity|]. exact (zero_amount_sign_splits rec_zero_credit eq_refl).
Defined.

Lemma load_accounts_error_witness :
  let e := InterpolationSyntaxError "name" "checking" bad_percent "%" in
  (_load_accounts sample_config_percent = inr e /\
   (e = KeyError "iban"%string \/ is_interpolation_error e)) /\
  (no_percent sample_config /\
   (_load_accounts sample_config = inr (KeyError "iban") <->
    KeyError "iban" = KeyError "iban"%string /\ Exists (lacks_iban sample_config) (sections sample_config))).
Proof.
  intros e.
  assert (H : _load_accounts sample_config_percent = inr e) by (vm_compute; reflexivity).
  assert (N : no_percent sample_config) by (split; repeat constructor).
  split.
  - split; [exact H | exact (proj1 (load_accounts_error sample_config_percent e) H)].
  - split; [exact N | exact (proj2 (load_accounts_error sample_config (KeyError "iban")) N)].
Defined.

Lemma load_accounts_last_wins_witness :
  let m := ok_or ∅ (_load_accounts sample_config) in
  _load_accounts sample_config = inl m /\ m !! "NL01ABNA0000000001"%string = Some "Joint"%string.
Proof.
  intros m. assert (H : _load_accounts sample_config = inl m) by (vm_compute; reflexivity).
  split; [exact H|].
  apply (proj2 (load_accounts_last_wins sample_config m H "NL01ABNA0000000001" "Joint")).
  exists [("checking", [("iban", "NL01ABNA0000000001"); ("name", "Checking")]);
          ("savings", [("iban", "NL02ABNA0000000002")])]%string,
         "joint"%string, [("iban", "NL01ABNA0000000001"); ("name", "Joint")]%string, [].
  split; [reflexivity | split; [reflexivity | split; [reflexivity | constructor]]].
Defined.

Lemma find_sepa_field_unknown_tag_witness :
  ~ In "ADDR"%string sepa_tags /\ find_sepa_field "/TRTP/SEPA/ADDR/x/IBAN/y" "ADDR" = None.
Proof.
  assert (H : ~ In "ADDR"%string sepa_tags).
  { intros Hin. vm_compute in Hin. repeat (destruct Hin as [Hin|Hin]; [discriminate Hin|]). exact Hin. }
  split; [exact H | exact (find_sepa_field_unknown_tag _ _ H)].
Defined.

Lemma find_sepa_field_between_delims_witness :
  find_sepa_field "/TRTP/SEPA/IBAN/NL12/BIC/X" "IBAN" = Some "NL12"%string /\
  exists p t q, chars "/TRTP/SEPA/IBAN/NL12/BIC/X" = p ++ delim "IBAN" ++ chars "NL12" ++ delim t ++ q /\
                t <> "IBAN"%string /\ In t sepa_tags.
Proof.
  assert (H : find_sepa_field "/TRTP/SEPA/IBAN/NL12/BIC/X" "IBAN" = Some "NL12"%string)
    by (vm_compute; reflexivity).
  split; [exact H | exact (find_sepa_field_between_delims _ _ _ H)].
Defined.

